(** * jQuery.extendext: a store model of the configuration-merge utility

    The development embeds [$.extendext] (the deep-merge helper bundled with
    the RangeFilter plugin) together with the part of [jQuery.extend] it
    calls, over an explicit store of JavaScript objects.  References are
    store locations, so that "same reference", aliasing and in-place
    mutation can be stated.  Recursion is bounded by a fuel argument that
    stands for the depth of the JavaScript call stack: a call that exhausts
    every amount of fuel is a call that overflows the stack.

    What is modelled of the language: the six kinds of value, with numbers
    as integers and strings as ASCII; objects with their own enumerable
    properties, arrays with holes; [typeof], truthiness, [===], property
    reads and writes, [for-in] (over the keys present when the loop
    starts), [forEach], [indexOf], [push] and [concat].  What is not:
    prototype chains, accessors, frozen objects and the [length] property
    of arrays as a key. *)

From Stdlib Require Import ZArith Ascii Lia.
From stdpp Require Import base option list strings.
From stdpp Require Import gmap.

Open Scope string_scope.
Open Scope nat_scope.
Open Scope list_scope.
Open Scope stdpp_scope.

(** ** Values, objects and the store *)

Abbreviation loc := nat.

Inductive value :=
| VUndef
| VNull
| VBool (b : bool)
| VNum (n : Z)
| VStr (s : string)
| VRef (l : loc).

(** A property key is an array index or any other property name ([Name s]
    stands for a name that is not the decimal spelling of an index). *)
Inductive key :=
| Idx (i : nat)
| Name (s : string).

(** What [$.isArray], [$.isFunction] and [$.isPlainObject] tell apart.
    [KOther] stands for objects that are none of these (dates, DOM nodes,
    instances of user classes). *)
Inductive kind := KPlain | KArray | KFunction | KOther.

(** An object: its kind, its index-keyed properties ([None] is a hole; for
    an array this list is the array itself and its length is the array's
    [length]) and its other own enumerable properties in insertion order.
    Prototype chains, accessors and the exotic [length] property of arrays
    are outside the model. *)
Record obj := Obj {
  cls : kind;
  elems : list (option value);
  named : list (string * value)
}.

Abbreviation heap := (list obj).

Global Instance value_eq_dec : EqDecision value.
Proof. solve_decision. Defined.
Global Instance key_eq_dec : EqDecision key.
Proof. solve_decision. Defined.
Global Instance kind_eq_dec : EqDecision kind.
Proof. solve_decision. Defined.

Definition empty_plain : obj := Obj KPlain [] [].
Definition empty_array : obj := Obj KArray [] [].

(** [{}] and [[]]: allocation of a new object at the end of the store. *)
Definition alloc (h : heap) (o : obj) : heap * value := (h ++ [o], VRef (List.length h)).

(** ** Primitive operations of the language *)

Definition truthy (v : value) : bool :=
  match v with
  | VUndef | VNull => false
  | VBool b => b
  | VNum n => negb (n =? 0)%Z
  | VStr s => negb (String.eqb s "")
  | VRef _ => true
  end.

(** [a === b] *)
Definition strict_eq (a b : value) : bool := bool_decide (a = b).

Definition kind_of (h : heap) (v : value) : option kind :=
  match v with
  | VRef l => Some (from_option cls KOther (h !! l))
  | _ => None
  end.

(** [typeof v === "object"] *)
Definition typeof_object (h : heap) (v : value) : bool :=
  match v with
  | VNull => true
  | VRef _ => negb (bool_decide (kind_of h v = Some KFunction))
  | _ => false
  end.

Definition isFunction (h : heap) (v : value) : bool := bool_decide (kind_of h v = Some KFunction).
Definition isArray (h : heap) (v : value) : bool := bool_decide (kind_of h v = Some KArray).
Definition isPlainObject (h : heap) (v : value) : bool := bool_decide (kind_of h v = Some KPlain).

Fixpoint assoc_get (s : string) (l : list (string * value)) : option value :=
  match l with
  | [] => None
  | (s', v) :: r => if String.eqb s s' then Some v else assoc_get s r
  end.

Fixpoint assoc_set (s : string) (v : value) (l : list (string * value)) : list (string * value) :=
  match l with
  | [] => [(s, v)]
  | (s', v') :: r => if String.eqb s s' then (s, v) :: r else (s', v') :: assoc_set s v r
  end.

(** [a[i] = v] on the index-keyed part: in range it overwrites, out of range
    it extends with holes. *)
Definition elems_set (i : nat) (v : value) (l : list (option value)) : list (option value) :=
  if decide (i < List.length l) then <[i := Some v]> l
  else l ++ replicate (i - List.length l) None ++ [Some v].

Definition oget (o : obj) (k : key) : value :=
  match k with
  | Idx i => from_option (from_option id VUndef) VUndef (elems o !! i)
  | Name s => from_option id VUndef (assoc_get s (named o))
  end.

Definition oset (o : obj) (k : key) (v : value) : obj :=
  match k with
  | Idx i => Obj (cls o) (elems_set i v (elems o)) (named o)
  | Name s => Obj (cls o) (elems o) (assoc_set s v (named o))
  end.

(** Indices that hold a value, in ascending order. *)
Fixpoint present_from (start : nat) (l : list (option value)) : list nat :=
  match l with
  | [] => []
  | Some _ :: r => start :: present_from (S start) r
  | None :: r => present_from (S start) r
  end.

Definition okeys (o : obj) : list key :=
  (Idx <$> present_from 0 (elems o)) ++ (Name ∘ fst <$> named o).

Definition char_at (s : string) (i : nat) : value :=
  match String.get i s with
  | Some c => VStr (String c EmptyString)
  | None => VUndef
  end.

(** [v[k]]: a property read.  A string has its characters as index
    properties; other primitives have none. *)
Definition read (h : heap) (v : value) (k : key) : value :=
  match v with
  | VRef l => from_option (fun o => oget o k) VUndef (h !! l)
  | VStr s => match k with Idx i => char_at s i | Name _ => VUndef end
  | _ => VUndef
  end.

(** [v[k] = x]: a property write, on an object of the store. *)
Definition write (h : heap) (v : value) (k : key) (x : value) : heap :=
  match v with
  | VRef l => from_option (fun o => <[l := oset o k x]> h) h (h !! l)
  | _ => h
  end.

(** The keys visited by [for (name in v)], fixed when the loop starts. *)
Definition keys (h : heap) (v : value) : list key :=
  match v with
  | VRef l => from_option okeys [] (h !! l)
  | VStr s => Idx <$> seq 0 (String.length s)
  | _ => []
  end.

Definition array_elems (h : heap) (v : value) : list (option value) :=
  match v with
  | VRef l => from_option elems [] (h !! l)
  | _ => []
  end.

(** [a.indexOf(e) === -1] is [index_of h a e = None]: holes are skipped and
    elements are compared with [===]. *)
Fixpoint find_index (e : value) (l : list (option value)) (start : nat) : option nat :=
  match l with
  | [] => None
  | Some v :: r => if strict_eq v e then Some start else find_index e r (S start)
  | None :: r => find_index e r (S start)
  end.

Definition index_of (h : heap) (a e : value) : option nat := find_index e (array_elems h a) 0.

(** [a.push(e)] *)
Definition push (h : heap) (a e : value) : heap :=
  match a with
  | VRef l => from_option (fun o => <[l := Obj (cls o) (elems o ++ [Some e]) (named o)]> h) h (h !! l)
  | _ => h
  end.

(** [a.concat(x)]: a new array; an array argument is spread, anything else
    is appended as one element. *)
Definition concat (h : heap) (a x : value) : heap * value :=
  alloc h (Obj KArray (array_elems h a ++ (if isArray h x then array_elems h x else [Some x])) []).

Definition lower_ascii (c : ascii) : ascii :=
  let n := nat_of_ascii c in
  if Nat.leb 65 n && Nat.leb n 90 then ascii_of_nat (n + 32) else c.

(** [s.toLowerCase()], on ASCII letters. *)
Fixpoint toLowerCase (s : string) : string :=
  match s with
  | EmptyString => EmptyString
  | String c r => String (lower_ascii c) (toLowerCase r)
  end.

Definition array_modes : list string := ["default"; "concat"; "replace"; "extend"].

(** [$([s.toLowerCase(), 'default']).filter(['default','concat','replace','extend'])[0]] *)
Definition parse_array_mode (s : string) : string :=
  hd "default" (List.filter (fun m => existsb (String.eqb m) array_modes) [toLowerCase s; "default"]).

(** [arguments[i]] *)
Definition arg (args : list value) (i : nat) : value := default VUndef (args !! i).

(** [v || {}] *)
Definition or_empty (h : heap) (v : value) : heap * value :=
  if truthy v then (h, v) else alloc h empty_plain.

(** [if (typeof target !== "object" && !$.isFunction(target)) target = {}] *)
Definition coerce_target (h : heap) (target : value) : heap * value :=
  if negb (typeof_object h target) && negb (isFunction h target)
  then alloc h empty_plain else (h, target).

Abbreviation outcome := (option (list obj * value)).

(** ** The plain key/value merge, common to [$.extend] and [$.extendext] *)

Section merge_keys.
(** [recur h clone copy] is the recursive call of the enclosing function
    on the working clone and the source value. *)
Variable recur : heap → value → value → outcome.
Variable deep : bool.

(** One turn of [for (name in options)]. *)
Definition merge_key (target options : value) (h : heap) (name : key) : option heap :=
  let src := read h target name in
  let copy := read h options name in
  if strict_eq target copy then Some h
  else if deep && truthy copy && (isPlainObject h copy || isArray h copy) then
    let '(h1, clone) :=
      if isPlainObject h copy then
        if truthy src && isPlainObject h src then (h, src) else alloc h empty_plain
      else
        if truthy src && isArray h src then (h, src) else alloc h empty_array in
    '(h2, r) ← recur h1 clone copy;
    Some (write h2 target name r)
  else if negb (strict_eq copy VUndef) then Some (write h target name copy)
  else Some h.

Fixpoint merge_keys (target options : value) (h : heap) (names : list key) : option heap :=
  match names with
  | [] => Some h
  | name :: rest => h' ← merge_key target options h name; merge_keys target options h' rest
  end.
End merge_keys.

(** ** [jQuery.extend] *)

Section jQuery_extend_body.
Variable rec : heap → list value → outcome.
Variable this : loc.

Definition jq_merge_source (deep : bool) (h : heap) (target options : value) : outcome :=
  if strict_eq options VNull || strict_eq options VUndef then Some (h, target)
  else
    h' ← merge_keys (fun h clone copy => rec h [VBool deep; clone; copy]) deep
           target options h (keys h options);
    Some (h', target).

Fixpoint jq_merge_sources (deep : bool) (h : heap) (target : value) (sources : list value) : outcome :=
  match sources with
  | [] => Some (h, target)
  | options :: rest =>
      '(h', target') ← jq_merge_source deep h target options;
      jq_merge_sources deep h' target' rest
  end.

Definition jQuery_extend_body (h : heap) (args : list value) : outcome :=
  let '(h, target) := or_empty h (arg args 0) in
  let '(h, target, i, deep) :=
    match target with
    | VBool b => let '(h, t) := or_empty h (arg args 1) in (h, t, 2, b)
    | _ => (h, target, 1, false)
    end in
  let '(h, target) := coerce_target h target in
  let '(target, i) := if i =? List.length args then (VRef this, i - 1) else (target, i) in
  jq_merge_sources deep h target (drop i args).
End jQuery_extend_body.

(** Modelled from the spec: [$.extend] belongs to jQuery, which is not part
    of the sources; the spec describes it as the clone used by [concat] and
    [replace] ("when deep=true, nested object/array elements are recursively
    copied; when deep=false, elements are shallow-copied by reference"), and
    [$.extendext] is "based on jQuery.extend".  The definition is jQuery's
    algorithm: the argument resolution and plain key/value merge of
    [$.extendext] without the array modes. *)
Fixpoint jQuery_extend (fuel : nat) (this : loc) (h : heap) (args : list value) : outcome :=
  match fuel with
  | 0 => None
  | S n => jQuery_extend_body (jQuery_extend n this) this h args
  end.

(** ** [$.extendext] *)

Section extendext_body.
Variable rec : heap → list value → outcome.
Variable jq_extend : heap → list value → outcome.
Variable this : loc.

(** The callback given to [options.forEach] under ['extend']. *)
Definition extend_elem (deep : bool) (arrayMode : string) (clone : value)
    (h : heap) (i : nat) (e : value) : option heap :=
  if typeof_object h e then
    let '(h1, type) := alloc h (if isArray h e then empty_array else empty_plain) in
    let ci := read h1 clone (Idx i) in
    '(h2, r) ← rec h1 [VBool deep; VStr arrayMode; (if truthy ci then ci else type); e];
    Some (write h2 clone (Idx i) r)
  else if bool_decide (index_of h clone e = None) then Some (push h clone e)
  else Some h.

(** [options.forEach(f)]: the indices below the length read at the start,
    each visited if it holds a value at the time of the visit. *)
Fixpoint for_each (f : heap → nat → value → option heap) (options : value)
    (h : heap) (indices : list nat) : option heap :=
  match indices with
  | [] => Some h
  | i :: rest =>
      match array_elems h options !! i with
      | Some (Some e) => h' ← f h i e; for_each f options h' rest
      | _ => for_each f options h rest
      end
  end.

(** One turn of the loop over the source arguments. *)
Definition merge_source (deep : bool) (arrayMode : string) (h : heap)
    (target options : value) : outcome :=
  if strict_eq options VNull then Some (h, target)
  else if isArray h options && negb (String.eqb arrayMode "default") then
    let '(h1, clone) :=
      if truthy target && isArray h target then (h, target) else alloc h empty_array in
    if String.eqb arrayMode "concat" then
      let '(h2, fresh) := alloc h1 empty_array in
      '(h3, copy) ← jq_extend h2 [VBool deep; fresh; options];
      Some (concat h3 clone copy)
    else if String.eqb arrayMode "replace" then
      let '(h2, fresh) := alloc h1 empty_array in
      jq_extend h2 [VBool deep; fresh; options]
    else if String.eqb arrayMode "extend" then
      h2 ← for_each (extend_elem deep arrayMode clone) options h1
              (seq 0 (List.length (array_elems h1 options)));
      Some (h2, clone)
    else Some (h1, target)
  else
    h' ← merge_keys (fun h clone copy => rec h [VBool deep; VStr arrayMode; clone; copy]) deep
           target options h (keys h options);
    Some (h', target).

Fixpoint merge_sources (deep : bool) (arrayMode : string) (h : heap) (target : value)
    (sources : list value) : outcome :=
  match sources with
  | [] => Some (h, target)
  | options :: rest =>
      '(h', target') ← merge_source deep arrayMode h target options;
      merge_sources deep arrayMode h' target' rest
  end.

(** The state after the leading [deep] and [arrayMode] arguments have been
    consumed: store, target, index of the next argument, and both flags. *)
Definition resolve_flags (h : heap) (args : list value) : heap * value * nat * bool * string :=
  let '(h, target) := or_empty h (arg args 0) in
  let '(h, target, i, deep) :=
    match target with
    | VBool b => let '(h, t) := or_empty h (arg args 1) in (h, t, 2, b)
    | _ => (h, target, 1, false)
    end in
  match target with
  | VStr s => let '(h, t) := or_empty h (arg args i) in (h, t, S i, deep, parse_array_mode s)
  | _ => (h, target, i, deep, "default")
  end.

Definition extendext_body (h : heap) (args : list value) : outcome :=
  let '(h, target, i, deep, arrayMode) := resolve_flags h args in
  let '(h, target) := coerce_target h target in
  let '(target, i) := if i =? List.length args then (VRef this, i - 1) else (target, i) in
  merge_sources deep arrayMode h target (drop i args).
End extendext_body.

(** [$.extendext(args...)] called on the receiver [this] (the jQuery
    object), within a call stack of depth [fuel]. *)
Fixpoint extendext (fuel : nat) (this : loc) (h : heap) (args : list value) : outcome :=
  match fuel with
  | 0 => None
  | S n => extendext_body (extendext n this) (jQuery_extend n this) this h args
  end.

(** ** Structures as trees: building a store and reading a result back *)

(** The spec's Structure: a scalar leaf or a container with its index-keyed
    and named members.  [build] allocates a structure in the store,
    children before parents; [reify] reads the structure reachable from a
    value, which is how "returns {a:[1,2,3]}" is stated. *)
#[warnings="-register-all"]
Inductive tree :=
| Leaf (v : value)
| Node (k : kind) (es : list (option tree)) (ns : list (string * tree)).

Fixpoint build (t : tree) (h : heap) : heap * value :=
  match t with
  | Leaf v => (h, v)
  | Node k es ns =>
      let '(h1, es') :=
        (fix go es h :=
           match es with
           | [] => (h, [])
           | None :: r => let '(h', r') := go r h in (h', None :: r')
           | Some t :: r =>
               let '(h', v) := build t h in
               let '(h'', r') := go r h' in (h'', Some v :: r')
           end) es h in
      let '(h2, ns') :=
        (fix go ns h :=
           match ns with
           | [] => (h, [])
           | (s, t) :: r =>
               let '(h', v) := build t h in
               let '(h'', r') := go r h' in (h'', (s, v) :: r')
           end) ns h1 in
      alloc h2 (Obj k es' ns')
  end.

Fixpoint reify (fuel : nat) (h : heap) (v : value) : option tree :=
  match v with
  | VRef l =>
      match fuel with
      | 0 => None
      | S n =>
          o ← h !! l;
          es ← mapM (fun e => match e with
                              | None => Some None
                              | Some x => Some <$> reify n h x
                              end) (elems o);
          ns ← mapM (fun p => pair (fst p) <$> reify n h (snd p)) (named o);
          Some (Node (cls o) es ns)
      end
  | _ => Some (Leaf v)
  end.

Definition num (n : Z) : tree := Leaf (VNum n).
Definition arr (l : list tree) : tree := Node KArray (Some <$> l) [].
Definition object (l : list (string * tree)) : tree := Node KPlain [] l.

(** The receiver [$]: a function object, at location 0 of the stores used in
    the examples. *)
Definition jQuery : obj := Obj KFunction [] [].
Definition jq : loc := 0.

(** The store holding [$] and the given structures, with their references. *)
Definition setup (ts : list tree) : heap * list value :=
  foldl (fun '(h, vs) t => let '(h', v) := build t h in (h', vs ++ [v])) ([jQuery], []) ts.

(** ** Predicates of the statements *)

(** The values an object holds. *)
Definition vals (o : obj) : list value := omap id (elems o) ++ (snd <$> named o).


(** [reach h v l]: the object at [l] is [v] or a container nested in it. *)
Inductive reach (h : heap) : value → loc → Prop :=
| reach_here l : reach h (VRef l) l
| reach_step l o x l' :
    h !! l = Some o → x ∈ vals o → reach h x l' → reach h (VRef l) l'.

Section separation.
(** [src] is the set of locations of the source structures and [rk] ranks
    them, every container above its members. *)
Variable src : loc → Prop.
Variable rk : loc → nat.

Definition inside (v : value) : Prop :=
  match v with VRef l => src l | _ => True end.

Definition outside (v : value) : Prop :=
  match v with VRef l => ¬ src l | _ => True end.

Definition rank (v : value) : nat :=
  match v with VRef l => S (rk l) | _ => 0 end.

(** The sources are plain objects and arrays over scalars and further
    sources, without cycles; nothing else in the store refers to them. *)
Record separated (h : heap) : Prop := {
  sep_src : ∀ l, src l →
    ∃ o, h !! l = Some o ∧ (cls o = KPlain ∨ cls o = KArray) ∧
         Forall (fun v => inside v ∧ rank v ≤ rk l) (vals o);
  sep_tgt : ∀ l o, ¬ src l → h !! l = Some o → Forall outside (vals o)
}.

(** The sources are the same in [h'] as in [h]. *)
Definition extends (h h' : heap) : Prop := ∀ l, src l → h' !! l = h !! l.

(** The outcome of a call that returns, leaves the sources as they are and
    lets none of them into what it builds. *)
Definition framed (h : heap) (res : outcome) : Prop :=
  ∃ h' r, res = Some (h', r) ∧ separated h' ∧ extends h h' ∧ outside r.
End separation.

(** The target after [|| {}] and the coercion. *)
Definition resolved (h : heap) (v : value) : heap * value :=
  match v with VRef _ => (h, v) | _ => alloc h empty_plain end.

(** The leading arguments of a call that gives no array mode. *)
Definition flags (deep : bool) : list value := if deep then [VBool true] else [].

(** A source none of whose values is recursed into: the deep flag is off,
    or no value is a plain object or an array. *)
Definition flat (deep : bool) (h : heap) (s : value) : Prop :=
  deep = true → ∀ name, isPlainObject h (read h s name) || isArray h (read h s name) = false.

(** What a merge that writes only to the object at [t] keeps. *)
Definition writes_only (t : loc) (h0 h : heap) : Prop :=
  (∀ l, l ≠ t → h !! l = h0 !! l) ∧ (∀ v, kind_of h v = kind_of h0 v).

(** A value that is neither a reference nor [undefined]. *)
Definition scalar (v : value) : Prop :=
  match v with VRef _ | VUndef => False | _ => True end.

(** [call fuel flags ts]: the structures [ts] are built in a store that
    holds [$], [$.extendext(flags..., ts...)] is called, and the structure
    it returns is read back. *)
Definition call (fuel : nat) (flags : list value) (ts : list tree) : option tree :=
  let '(h, vs) := setup ts in
  '(h', r) ← extendext fuel jq h (flags ++ vs);
  reify fuel h' r.

(** ** Stores of the examples *)

(** [$] and [{a: 1}]. *)
Definition store_one : heap := [jQuery; Obj KPlain [] [("a", VNum 1)]].

(** [$], [[1,2]] and [[2,3]]. *)
Definition store_arrays : heap :=
  [jQuery; Obj KArray [Some (VNum 1); Some (VNum 2)] [];
   Obj KArray [Some (VNum 2); Some (VNum 3)] []].

(** [$], then [x = {a: [1,2]}] at location 2 (its array at 1), and two
    objects [{k: x}] at 3 and 4 that share [x]. *)
Definition store_shared : heap :=
  [jQuery; Obj KArray [Some (VNum 1); Some (VNum 2)] []; Obj KPlain [] [("a", VRef 1)];
   Obj KPlain [] [("k", VRef 2)]; Obj KPlain [] [("k", VRef 2)]].

(** [$], [[5]] and [[null]]. *)
Definition store_null : heap :=
  [jQuery; Obj KArray [Some (VNum 5)] []; Obj KArray [Some VNull] []].




(** [$], the target [{}] at 1, and the source [{a: [1,2]}] at 3 with its
    array at 2. *)
Definition store_nested : heap :=
  [jQuery; Obj KPlain [] []; Obj KArray [Some (VNum 1); Some (VNum 2)] [];
   Obj KPlain [] [("a", VRef 2)]].

(** The locations of the source of [store_nested]. *)
Definition src_nested (l : loc) : Prop := l = 2 ∨ l = 3.

(** [$], [{x: 1}] in the array at 2, and [{y: 2}] in the array at 4. *)
Definition store_elems : heap :=
  [jQuery; Obj KPlain [] [("x", VNum 1)]; Obj KArray [Some (VRef 1)] [];
   Obj KPlain [] [("y", VNum 2)]; Obj KArray [Some (VRef 3)] []].

(** [$], the empty array at 1 of the defaults [{filters: []}] at 2, the
    options [{}] at 3, an instance at 4, and the options
    [{filters: ['year', 'month']}] at 6 with their array at 5. *)
Definition store_plugin : heap :=
  [jQuery; empty_array; Obj KPlain [] [("filters", VRef 1)]; empty_plain;
   Obj KOther [] []; Obj KArray [Some (VStr "year"); Some (VStr "month")] [];
   Obj KPlain [] [("filters", VRef 5)]].

(** [$], the years [[1, 2]] selected at 1 and the instance holding them
    at 2. *)
Definition store_selected : heap :=
  [jQuery; Obj KArray [Some (VNum 1); Some (VNum 2)] []; Obj KOther [] [("year", VRef 1)]].

(** ** Array merges written out *)

(** The elements of an array after the values [vs] went through ['extend']:
    each value that is not yet an element is appended. *)
Definition extended (tc : list (option value)) (vs : list value) : list (option value) :=
  foldl (fun acc v => if decide (Some v ∈ acc) then acc else acc ++ [Some v]) tc vs.


(** * RangeFilter: settings and defaults *)

Module RangeFilter.

(** [v.length], for a truthy [v] (the arity of a function, which is its
    [length], is not in the model). *)
Definition length_of (h : heap) (v : value) : value :=
  match v with
  | VStr s => VNum (Z.of_nat (String.length s))
  | VRef _ =>
      if isArray h v then VNum (Z.of_nat (length (array_elems h v)))
      else read h v (Name "length")
  | _ => VUndef
  end.

(** [x < 1]; [None] where the comparison converts a string or an object to
    a number, which the model does not do. *)
Definition lt_one (x : value) : option bool :=
  match x with
  | VUndef => Some false
  | VNull => Some true
  | VBool b => Some (negb b)
  | VNum n => Some (n <? 1)%Z
  | VStr _ | VRef _ => None
  end.

(** How the checks of [init] and [checkFilters] end: [$.error] raises an
    error with a message, a property is read from [undefined] or [null], or
    the checks are passed; [Beyond] when [lt_one] has no answer. *)
Inductive checked :=
| Raised (message : string)
| TypeError
| Passed (h : heap)
| Beyond.

(** [checkFilters()] on the instance [this], up to its last statement,
    [this.trigger('afterCheckFilters')]. *)
Definition checkFilters (h : heap) (this : value) : checked :=
  let filters := read h this (Name "filters") in
  if strict_eq filters VUndef || strict_eq filters VNull then TypeError
  else if negb (truthy (read h filters (Name "year"))) then
    Raised "Missing filter year configuration"
  else if negb (truthy (read h (read h filters (Name "year")) (Name "start"))) then
    Raised "Missing filter year start configuration"
  else if negb (truthy (read h (read h filters (Name "year")) (Name "finish"))) then
    Raised "Missing filter year finish configuration"
  else if negb (truthy (read h filters (Name "month"))) then
    Raised "Missing filter month configuration"
  else if negb (truthy (read h filters (Name "day"))) then
    Raised "Missing filter day configuration"
  else Passed h.

(** [$.extendext(true, 'replace', {}, RangeFilter.DEFAULTS, options)], the
    settings of [init]; [$] is the object at [dollar]. *)
Definition settings (fuel : nat) (dollar : loc) (h : heap) (DEFAULTS options : value)
    : outcome :=
  let '(h, fresh) := alloc h empty_plain in
  extendext fuel dollar h [VBool true; VStr "replace"; fresh; DEFAULTS; options].

(** [init(options)] on the instance [this], an object of the store, from
    its first statement to the last check of [checkFilters]; [None] when
    the merge of the settings exhausts the call stack. *)
Definition init (fuel : nat) (dollar : loc) (this : value) (h : heap) (DEFAULTS options : value)
    : option checked :=
  '(h, r) ← settings fuel dollar h DEFAULTS options;
  let h := write h this (Name "settings") r in
  let h := write h this (Name "filters")
             (read h (read h this (Name "settings")) (Name "filters")) in
  let h := write h this (Name "icons")
             (read h (read h this (Name "settings")) (Name "icons")) in
  let '(h, a) := alloc h empty_array in
  let h := write h this (Name "year") a in
  let '(h, a) := alloc h empty_array in
  let h := write h this (Name "month") a in
  let '(h, a) := alloc h empty_array in
  let h := write h this (Name "day") a in
  let filters := read h this (Name "filters") in
  if negb (truthy filters) then Some (Raised "Missing filters list")
  else
    match lt_one (length_of h filters) with
    | Some true => Some (Raised "Missing filters list")
    | Some false => Some (checkFilters h this)
    | None => Some Beyond
    end.


(** [$.fn.rangeFilter.defaults.get(key)]: [key] is the property named by
    the argument, [None] when the argument is falsy or absent. *)
Definition defaults_get (fuel : nat) (dollar : loc) (h : heap) (DEFAULTS : value)
    (key : option key) : outcome :=
  let options := match key with Some k => read h DEFAULTS k | None => DEFAULTS end in
  let '(h, fresh) := alloc h empty_plain in
  jQuery_extend fuel dollar h [VBool true; fresh; options].

(** ** The values selected *)

(** [getFilter()] on the instance [this]. *)
Definition getFilter (h : heap) (this : value) : heap * value :=
  alloc h (Obj KPlain [] [("year", read h this (Name "year"));
                          ("month", read h this (Name "month"));
                          ("day", read h this (Name "day"))]).

(** [a.pop()], for what it does to the array. *)
Definition pop (h : heap) (a : value) : heap :=
  match a with
  | VRef l =>
      from_option (fun o => <[l := Obj (cls o) (removelast (elems o)) (named o)]> h) h (h !! l)
  | _ => h
  end.

(** [Array.prototype.clear] called on the array [this]:
    [while (this.length > 0) this.pop()], within [fuel] turns. *)
Fixpoint clear (fuel : nat) (h : heap) (this : value) : option heap :=
  if Nat.ltb 0 (length (array_elems h this)) then
    match fuel with
    | 0 => None
    | S n => clear n (pop h this) this
    end
  else Some h.

(** ** [fmt] *)

(** [[0-9]] *)
Definition is_digit (c : ascii) : bool :=
  Nat.leb 48 (nat_of_ascii c) && Nat.leb (nat_of_ascii c) 57.

(** [[0-9]*] at the start of [s]: the longest run of digits and what
    follows it. *)
Fixpoint span_digits (s : string) : string * string :=
  match s with
  | EmptyString => (EmptyString, EmptyString)
  | String c r =>
      if is_digit c then let '(ds, rest) := span_digits r in (String c ds, rest)
      else (EmptyString, s)
  end.

(** [parseInt(ds)] for a string of digits, [acc] being the value of the
    digits read so far. *)
Fixpoint parseInt (acc : nat) (ds : string) : nat :=
  match ds with
  | EmptyString => acc
  | String c r => parseInt (10 * acc + (nat_of_ascii c - 48)) r
  end.

(** The match of [/{([0-9]+)}/] at the start of [s]: the digits captured
    and what follows the match. *)
Definition match_placeholder (s : string) : option (string * string) :=
  match s with
  | String "{" r =>
      match span_digits r with
      | (String d ds, String "}" rest) => Some (String d ds, rest)
      | _ => None
      end
  | _ => None
  end.

(** [s.replace(/{([0-9]+)}/g, f)]: the matches are taken from left to
    right, each search starting where the match before ended; what [f]
    returns is not searched.  Every turn consumes a character, so the
    length of [s] is fuel enough. *)
Fixpoint replace_all (fuel : nat) (f : string → string) (s : string) : string :=
  match fuel with
  | 0 => s
  | S n =>
      match match_placeholder s with
      | Some (i, rest) => String.append (f i) (replace_all n f rest)
      | None =>
          match s with
          | EmptyString => EmptyString
          | String c r => String c (replace_all n f r)
          end
      end
  end.

(** [fmt(str, args...)]; the arguments are given as the strings they
    convert to. *)
Definition fmt (str : string) (args : list string) : string :=
  let args := str :: args in
  replace_all (String.length str)
    (fun i => default "undefined" (args !! (parseInt 0 i + 1))) str.

End RangeFilter.

(** * MicroEvent: the event emitter mixed into RangeFilter *)

Module MicroEvent.

(** What is registered as a handler: a function, known by its identity, or
    any other value passed where a function is expected. *)
Inductive callback :=
| Fn (id : nat)
| NotFn (v : value).

Global Instance callback_eq_dec : EqDecision callback.
Proof. solve_decision. Defined.

(** [if (fct)] *)
Definition given (fct : callback) : bool :=
  match fct with Fn _ => true | NotFn v => truthy v end.

(** [MicroEvent.Event]: what its two query methods return. *)
Record Event := {
  isDefaultPrevented : bool;
  isPropagationStopped : bool
}.

(** [new MicroEvent.Event()] *)
Definition new_Event : Event :=
  {| isDefaultPrevented := false; isPropagationStopped := false |}.

Definition preventDefault (e : Event) : Event :=
  {| isDefaultPrevented := true; isPropagationStopped := isPropagationStopped e |}.

Definition stopPropagation (e : Event) : Event :=
  {| isDefaultPrevented := isDefaultPrevented e; isPropagationStopped := true |}.

(** [this._events] and [this._once]: from an event name to the array of its
    handlers (names of members of [Object.prototype] are left out of the
    model). *)
Abbreviation registry := (gmap string (list callback)).

Record emitter := Emitter {
  _events : registry;
  _once : registry
}.

(** The [events] argument of [on], [off] and [once]: a string of names, an
    object (its own enumerable properties, in order; [null] has none),
    [undefined] or another falsy value that is neither, or anything else. *)
Inductive events_arg :=
| Names (s : string)
| Handlers (m : list (string * callback))
| Falsy
| Truthy.

(** [s.split(sep)] for a separator of one character. *)
Fixpoint split (sep : ascii) (s : string) : list string :=
  match s with
  | EmptyString => [EmptyString]
  | String c r =>
      if Ascii.eqb c sep then EmptyString :: split sep r
      else match split sep r with
           | x :: xs => String c x :: xs
           | [] => [String c EmptyString]
           end
  end.

(** The handlers of an event, none when the name is absent. *)
Definition handlers (reg : registry) (event : string) : list callback :=
  default [] (reg !! event).

(** [reg[event] = reg[event] || []; reg[event].push(f)] *)
Definition add (reg : registry) (event : string) (f : callback) : registry :=
  <[event := handlers reg event ++ [f]]> reg.

(** [index = l.indexOf(f); if (index !== -1) l.splice(index, 1)] *)
Fixpoint remove_first (f : callback) (l : list callback) : list callback :=
  match l with
  | [] => []
  | x :: r => if decide (x = f) then r else x :: remove_first f r
  end.

(** The body shared by [on] and [once], on the registry of each; [None] is
    the [TypeError] of [events.split] on a value that is not a string. *)
Definition register (reg : registry) (events : events_arg) (fct : callback)
    : option registry :=
  match events with
  | Handlers m => Some (foldl (fun reg p => add reg (fst p) (snd p)) reg m)
  | Names s => Some (foldl (fun reg event => add reg event fct) reg (split " " s))
  | Falsy | Truthy => None
  end.

Definition on (this : emitter) (events : events_arg) (fct : callback) : option emitter :=
  reg ← register (_events this) events fct;
  Some (Emitter reg (_once this)).


Definition off (this : emitter) (events : events_arg) (fct : callback) : option emitter :=
  match events with
  | Handlers m =>
      Some (Emitter
              (foldl (fun reg p =>
                        match reg !! fst p with
                        | Some l => <[fst p := remove_first (snd p) l]> reg
                        | None => reg
                        end) (_events this) m)
              (_once this))
  | Names s =>
      if String.eqb s "" then Some (Emitter ∅ (_once this))
      else
        Some (Emitter
                (foldl (fun reg event =>
                          match reg !! event with
                          | Some l =>
                              <[event := if given fct then remove_first fct l else []]> reg
                          | None => reg
                          end) (_events this) (split " " s))
                (_once this))
  | Falsy => Some (Emitter ∅ (_once this))
  | Truthy => None
  end.

Section handlers.
(** [run id this args e]: the call [f.apply(this, args.concat(e))] of the
    function of identity [id]: the emitter and the event object as the
    function leaves them and the value it returns, [None] when it throws. *)
Variable run : nat → emitter → list value → Event → option (emitter * value * Event).

Definition apply (f : callback) (this : emitter) (args : list value) (e : Event)
    : option (emitter * value * Event) :=
  match f with
  | Fn id => run id this args e
  | NotFn _ => None
  end.

(** [for (i = i0; i < i0 + n; i++) { this.field[event][i].apply(this, args);
    if (e.isPropagationStopped()) return e; }]: the array is read again at
    every turn; the boolean tells whether the loop returned. *)
Fixpoint fire (field : emitter → registry) (event : string) (args : list value)
    (this : emitter) (e : Event) (i n : nat) : option (emitter * Event * bool) :=
  match n with
  | 0 => Some (this, e, false)
  | S n' =>
      l ← field this !! event;
      f ← l !! i;
      '(this', _, e') ← apply f this args e;
      if isPropagationStopped e' then Some (this', e', true)
      else fire field event args this' e' (S i) n'
  end.

Definition trigger (this : emitter) (event : string) (args : list value)
    : option (emitter * Event) :=
  let e := new_Event in
  '(this, e, returned) ←
    match _events this !! event return option (emitter * Event * bool) with
    | Some l => fire _events event args this e 0 (length l)
    | None => Some (this, e, false)
    end;
  if returned : bool then Some (this, e)
  else
    match _once this !! event with
    | Some l =>
        '(this, e, _) ← fire _once event args this e 0 (length l);
        Some (Emitter (_events this) (delete event (_once this)), e)
    | None => Some (this, e)
    end.

(** The loop of [change]: [args[0] = value; value = f.apply(this, args)],
    [val] being the source's [value]. *)
Fixpoint modify (event : string) (args : list value) (this : emitter) (e : Event)
    (val : value) (i n : nat) : option (emitter * value) :=
  match n with
  | 0 => Some (this, val)
  | S n' =>
      l ← _events this !! event;
      f ← l !! i;
      '(this', val', e') ← apply f this (val :: args) e;
      if isPropagationStopped e' then Some (this', val')
      else modify event args this' e' val' (S i) n'
  end.

(** [change(event, value, args...)], called with its value. *)
Definition change (this : emitter) (event : string) (val : value) (args : list value)
    : option (emitter * value) :=
  match _events this !! event with
  | Some l => modify event args this new_Event val 0 (length l)
  | None => Some (this, val)
  end.

(** A handler that returns and leaves the emitter and the event object as
    they are. *)
Definition quiet (f : callback) : Prop :=
  ∃ id, f = Fn id ∧ ∀ this args e, ∃ v, run id this args e = Some (this, v, e).

(** A modifier that computes [result id args] and does nothing else. *)
Definition modifier (result : nat → list value → value) (f : callback) : Prop :=
  ∃ id, f = Fn id ∧ ∀ this args e, run id this args e = Some (this, result id args, e).
End handlers.

(** Functions for the examples: 0 returns, 1 stops the propagation,
    2 unregisters itself from the event [change], 3 returns its first
    argument plus one, 4 returns twice its first argument; the others throw. *)
Definition sample_value (id : nat) (args : list value) : value :=
  match id, args with
  | 3, VNum n :: _ => VNum (n + 1)
  | 4, VNum n :: _ => VNum (2 * n)
  | _, _ => VUndef
  end.

Definition sample (id : nat) (this : emitter) (args : list value) (e : Event)
    : option (emitter * value * Event) :=
  match id with
  | 0 => Some (this, VUndef, e)
  | 1 => Some (this, VUndef, stopPropagation e)
  | 2 => this' ← off this (Handlers [("change", Fn 2)]) (NotFn VUndef);
         Some (this', VUndef, e)
  | 3 | 4 => Some (this, sample_value id args, e)
  | _ => None
  end.

(** Emitters for the examples. *)
Definition listening : emitter :=
  Emitter {["draw" := [Fn 0]; "change" := [Fn 3; Fn 4]]} {["draw" := [Fn 0]]}.

Definition stopping : emitter :=
  Emitter {["draw" := [Fn 0; Fn 1; Fn 5]]} {["draw" := [Fn 5]]}.

Definition unregistering : emitter :=
  Emitter {["change" := [Fn 0; Fn 2; Fn 0]]} ∅.

(** How many times a name occurs among the names given. *)
Definition occurrences (event : string) (names : list string) : nat :=
  length (filter (fun x => x = event) names).

End MicroEvent.

(** * Properties *)

(** ** The store operations *)

Lemma lookup_alloc_old (h : heap) (o : obj) (l : loc) :
  l < length h → (alloc h o).1 !! l = h !! l.
Proof. intros Hl. unfold alloc; cbn [fst]. by rewrite lookup_app_l. Qed.

Lemma lookup_alloc_new (h : heap) (o : obj) : (alloc h o).1 !! length h = Some o.
Proof. unfold alloc; cbn [fst]. by rewrite list_lookup_middle. Qed.

Lemma assoc_get_set_eq s v l : assoc_get s (assoc_set s v l) = Some v.
Proof.
  induction l as [|[s' v'] l IH]; simpl.
  - by rewrite String.eqb_refl.
  - destruct (String.eqb s s') eqn:E; simpl; rewrite ?String.eqb_refl, ?E; done.
Qed.

Lemma assoc_get_set_ne s s' v l : s ≠ s' → assoc_get s' (assoc_set s v l) = assoc_get s' l.
Proof.
  intros Hne. induction l as [|[s0 v0] l IH]; simpl.
  - destruct (String.eqb s' s) eqn:E; [|done].
    apply String.eqb_eq in E. congruence.
  - destruct (String.eqb s s0) eqn:E; simpl.
    + apply String.eqb_eq in E. subst s0.
      destruct (String.eqb s' s) eqn:E'; [|done].
      apply String.eqb_eq in E'. congruence.
    + by rewrite IH.
Qed.


Lemma elems_set_lookup_eq i v l : elems_set i v l !! i = Some (Some v).
Proof.
  unfold elems_set. case_decide as Hi.
  - by apply list_lookup_insert_eq.
  - rewrite lookup_app_r by lia. rewrite lookup_app_r; rewrite length_replicate; [|lia].
    by replace (i - length l - (i - length l)) with 0 by lia.
Qed.

Lemma elems_set_lookup_ne i j v l :
  i ≠ j →
  from_option (from_option id VUndef) VUndef (elems_set i v l !! j)
  = from_option (from_option id VUndef) VUndef (l !! j).
Proof.
  intros Hne. unfold elems_set. case_decide as Hi.
  - by rewrite list_lookup_insert_ne.
  - destruct (decide (j < length l)) as [Hj|Hj].
    + by rewrite lookup_app_l.
    + rewrite lookup_app_r by lia.
      rewrite (lookup_ge_None_2 l j) by lia.
      destruct (decide (j - length l < i - length l)) as [Hlt|Hge].
      * rewrite lookup_app_l by (rewrite length_replicate; lia).
        by rewrite lookup_replicate_2.
      * rewrite lookup_app_r by (rewrite length_replicate; lia).
        rewrite length_replicate.
        rewrite lookup_ge_None_2; [done|]. simpl. lia.
Qed.


Lemma oget_oset_eq o k v : oget (oset o k v) k = v.
Proof.
  destruct k as [i|s]; simpl.
  - by rewrite elems_set_lookup_eq.
  - by rewrite assoc_get_set_eq.
Qed.

Lemma oget_oset_ne o k k' v : k ≠ k' → oget (oset o k v) k' = oget o k'.
Proof.
  intros Hne. destruct k as [i|s], k' as [j|s']; simpl; try done.
  - apply elems_set_lookup_ne. congruence.
  - rewrite assoc_get_set_ne; [done|congruence].
Qed.



Lemma length_write h v k x : length (write h v k x) = length h.
Proof.
  destruct v; simpl; try done.
  destruct (h !! l); simpl; [|done]. by rewrite length_insert.
Qed.

Lemma lookup_write_ne h l k x l' : l ≠ l' → write h (VRef l) k x !! l' = h !! l'.
Proof.
  intros Hne. simpl. destruct (h !! l) eqn:E; simpl; [|done].
  by rewrite list_lookup_insert_ne.
Qed.

Lemma lookup_write_eq h l k x o :
  h !! l = Some o → write h (VRef l) k x !! l = Some (oset o k x).
Proof.
  intros E. simpl. rewrite E. simpl.
  apply list_lookup_insert_eq. by eapply lookup_lt_Some.
Qed.

Lemma read_write_ne h v k x v' k' : k ≠ k' → read (write h v k x) v' k' = read h v' k'.
Proof.
  intros Hne. destruct v' as [| | | | |l']; try done.
  destruct v as [| | | | |l]; try done.
  destruct (decide (l = l')) as [->|Hl].
  - simpl. destruct (h !! l') as [o|] eqn:E; simpl; [|by rewrite E].
    rewrite list_lookup_insert_eq by (by eapply lookup_lt_Some). simpl.
    by apply oget_oset_ne.
  - unfold read. by rewrite lookup_write_ne.
Qed.

Lemma kind_of_write h v k x v' : kind_of (write h v k x) v' = kind_of h v'.
Proof.
  destruct v' as [| | | | |l']; try done.
  destruct v as [| | | | |l]; try done. simpl.
  destruct (h !! l) as [o|] eqn:E; simpl; [|done].
  destruct (decide (l = l')) as [->|Hl].
  - rewrite list_lookup_insert_eq by (by eapply lookup_lt_Some). rewrite E.
    by destruct k.
  - by rewrite list_lookup_insert_ne.
Qed.

(** ** Array modes *)

Lemma parse_array_mode_valid s : parse_array_mode s ∈ array_modes.
Proof.
  unfold parse_array_mode. cbn [List.filter].
  destruct (existsb (String.eqb (toLowerCase s)) array_modes) eqn:E.
  - cbn [hd]. apply existsb_exists in E as (m & Hm & Heq).
    apply String.eqb_eq in Heq. rewrite Heq. by apply list_elem_of_In.
  - apply list_elem_of_In. vm_compute. auto.
Qed.

Lemma array_modes_cases m :
  m ∈ array_modes → m = "default" ∨ m = "concat" ∨ m = "replace" ∨ m = "extend".
Proof.
  intros H. apply list_elem_of_In in H. simpl in H.
  destruct H as [<- | [<- | [<- | [<- | []]]]]; auto.
Qed.

Lemma parse_array_mode_id m : m ∈ array_modes → parse_array_mode m = m.
Proof. intros H. apply array_modes_cases in H as [-> | [-> | [-> | ->]]]; reflexivity. Qed.


(** ** Argument resolution *)

Lemma coerce_target_ref h l : coerce_target h (VRef l) = (h, VRef l).
Proof.
  unfold coerce_target, typeof_object, isFunction.
  by destruct (bool_decide _).
Qed.

(** After [|| {}] and the coercion an object reference is kept and anything
    else is replaced by a new empty mapping. *)
Lemma coerce_or_empty h v :
  coerce_target (or_empty h v).1 (or_empty h v).2 = resolved h v.
Proof.
  unfold or_empty.
  destruct v as [| |b|n|s|l]; cbn [truthy].
  3: destruct b. 5: destruct (n =? 0)%Z. 7: destruct (String.eqb s "").
  all: cbn [negb fst snd alloc resolved]; try apply coerce_target_ref; reflexivity.
Qed.

Ltac unfold_call :=
  match goal with
  | |- context [extendext (S ?n) ?this ?h ?a] =>
      change (extendext (S n) this h a) with
        (extendext_body (extendext n this) (jQuery_extend n this) this h a);
      unfold extendext_body, resolve_flags
  | |- context [jQuery_extend (S ?n) ?this ?h ?a] =>
      change (jQuery_extend (S n) this h a) with
        (jQuery_extend_body (jQuery_extend n this) this h a);
      unfold jQuery_extend_body
  end;
  cbn [or_empty arg truthy String.eqb Ascii.eqb Bool.eqb negb lookup list_lookup
       default from_option id].

Ltac resolve_target h t :=
  rewrite <- (coerce_or_empty h t);
  unfold_call;
  destruct (or_empty h t) as [? ?]; cbn [fst snd];
  destruct (coerce_target _ _) as [? ?]; cbn [fst snd].

(** [$.extendext(true, mode, target, sources...)] *)
Lemma extendext_deep_mode n this h m t srcs :
  m ∈ array_modes → srcs ≠ [] →
  extendext (S n) this h (VBool true :: VStr m :: t :: srcs)
  = merge_sources (extendext n this) (jQuery_extend n this) true m
      (resolved h t).1 (resolved h t).2 srcs.
Proof.
  intros Hm Hs. destruct srcs as [|s srcs]; [done|].
  apply array_modes_cases in Hm as [-> | [-> | [-> | ->]]];
    resolve_target h t; reflexivity.
Qed.

(** [$.extendext(true, target, sources...)] *)
Lemma extendext_deep n this h l srcs :
  srcs ≠ [] →
  extendext (S n) this h (VBool true :: VRef l :: srcs)
  = merge_sources (extendext n this) (jQuery_extend n this) true "default" h (VRef l) srcs.
Proof.
  intros Hs. destruct srcs as [|s srcs]; [done|].
  unfold_call. rewrite coerce_target_ref. reflexivity.
Qed.



(** [$.extend(true, target, source)] *)
Lemma jQuery_extend_deep n this h t s :
  jQuery_extend (S n) this h [VBool true; t; s]
  = jq_merge_sources (jQuery_extend n this) true (resolved h t).1 (resolved h t).2 [s].
Proof. resolve_target h t. reflexivity. Qed.

(** ** The plain key/value merge *)

Lemma merge_source_null rec jqe deep m h target :
  merge_source rec jqe deep m h target VNull = Some (h, target).
Proof. reflexivity. Qed.


Lemma merge_source_not_array rec jqe deep m h target options :
  isArray h options = false →
  merge_source rec jqe deep m h target options
  = if strict_eq options VNull then Some (h, target)
    else h' ← merge_keys (fun h clone copy => rec h [VBool deep; VStr m; clone; copy])
                 deep target options h (keys h options);
         Some (h', target).
Proof. intros E. unfold merge_source. by rewrite E. Qed.


Lemma writes_only_read t h0 h s k :
  writes_only t h0 h → s ≠ VRef t → read h s k = read h0 s k.
Proof.
  intros [Hl _] Hs. destruct s as [| | | | |l]; try done.
  unfold read. rewrite Hl; [done|congruence].
Qed.

Lemma writes_only_write t h0 h k x :
  writes_only t h0 h → writes_only t h0 (write h (VRef t) k x).
Proof.
  intros [Hl Hk]. split.
  - intros l Hne. rewrite lookup_write_ne by done. by apply Hl.
  - intros v. rewrite kind_of_write. apply Hk.
Qed.

Lemma merge_keys_flat recur deep t s h0 names : ∀ h,
  flat deep h0 s → s ≠ VRef t → writes_only t h0 h →
  ∃ h', merge_keys recur deep (VRef t) s h names = Some h'
        ∧ writes_only t h0 h'
        ∧ ∀ k, read h0 s k = VUndef → read h' (VRef t) k = read h (VRef t) k.
Proof.
  induction names as [|name names IH]; intros h Hflat Hs Hinv.
  { exists h. split; [done|]. by split. }
  cbn [merge_keys]. unfold merge_key.
  rewrite (writes_only_read t h0 h s name) by done.
  set (copy := read h0 s name).
  assert (deep && truthy copy && (isPlainObject h copy || isArray h copy) = false) as Hcond.
  { destruct deep; [|done].
    specialize (Hflat eq_refl name). fold copy in Hflat.
    unfold isPlainObject, isArray in *. rewrite (proj2 Hinv copy).
    rewrite Hflat. apply andb_false_r. }
  rewrite Hcond.
  destruct (strict_eq (VRef t) copy); cbn [mbind option_bind].
  { by apply IH. }
  unfold strict_eq. case_bool_decide as Hu; cbn [mbind option_bind negb].
  { by apply IH. }
  destruct (IH (write h (VRef t) name copy)) as (h' & Hm & Hinv' & Hk); try done.
  { by apply writes_only_write. }
  exists h'. split; [done|]. split; [done|].
  intros k Hundef. rewrite Hk by done.
  apply read_write_ne. intros ->. by apply Hu.
Qed.


Lemma container_is_ref h v :
  isPlainObject h v || isArray h v = true → ∃ c, v = VRef c.
Proof.
  destruct v as [| | | | |c]; try done. by exists c.
Qed.



(** ** Sources kept apart from the target *)

Lemma Forall_vals (P : value → Prop) (o : obj) :
  Forall P (vals o) ↔ Forall (from_option P True) (elems o) ∧ Forall (P ∘ snd) (named o).
Proof.
  unfold vals. rewrite Forall_app, Forall_fmap.
  assert (Forall P (omap id (elems o)) ↔ Forall (from_option P True) (elems o)) as ->; [|done].
  induction (elems o) as [|[v|] l IH]; cbn.
  - split; constructor.
  - rewrite !Forall_cons, IH. done.
  - rewrite Forall_cons, IH. cbn. tauto.
Qed.

Lemma Forall_elems_set (Q : option value → Prop) i v l :
  Forall Q l → Q None → Q (Some v) → Forall Q (elems_set i v l).
Proof.
  intros Hl Hn Hv. unfold elems_set. case_decide.
  - by apply Forall_insert.
  - rewrite !Forall_app. split; [done|]. split.
    + by apply Forall_replicate.
    + by constructor.
Qed.

Lemma Forall_assoc_set (P : value → Prop) s v l :
  Forall (P ∘ snd) l → P v → Forall (P ∘ snd) (assoc_set s v l).
Proof.
  intros Hl Hv. induction l as [|[s' v'] l IH]; cbn.
  - by constructor.
  - apply Forall_cons in Hl as [H1 H2].
    destruct (String.eqb s s'); constructor; auto.
Qed.

Lemma Forall_vals_oset (P : value → Prop) o k v :
  Forall P (vals o) → P v → Forall P (vals (oset o k v)).
Proof.
  rewrite !Forall_vals. intros [He Hn] Hv. destruct k as [i|s]; cbn.
  - split; [|done]. by apply Forall_elems_set.
  - split; [done|]. by apply Forall_assoc_set.
Qed.

Lemma assoc_get_Forall (P : value → Prop) s l v :
  Forall (P ∘ snd) l → assoc_get s l = Some v → P v.
Proof.
  intros Hl. induction l as [|[s' v'] l IH]; cbn; [done|].
  apply Forall_cons in Hl as [H1 H2].
  destruct (String.eqb s s'); [by intros [= <-]|by apply IH].
Qed.

Lemma oget_Forall (P : value → Prop) o k :
  Forall P (vals o) → P VUndef → P (oget o k).
Proof.
  rewrite Forall_vals. intros [He Hn] Hu. destruct k as [i|s]; cbn.
  - destruct (elems o !! i) as [[v|]|] eqn:E; cbn; try done.
    by apply (Forall_lookup_1 _ _ _ _ He E).
  - destruct (assoc_get s (named o)) as [v|] eqn:E; cbn; [|done].
    by eapply assoc_get_Forall.
Qed.

Section frame.
Variable src : loc → Prop.
Variable rk : loc → nat.
Variable this : loc.

Local Abbreviation inside := (inside src).
Local Abbreviation outside := (outside src).
Local Abbreviation rank := (rank rk).
Local Abbreviation separated := (separated src rk).
Local Abbreviation extends := (extends src).
Local Abbreviation framed := (framed src rk).

Lemma extends_refl h : extends h h.
Proof. by intros l Hl. Qed.

Lemma extends_trans h1 h2 h3 : extends h1 h2 → extends h2 h3 → extends h1 h3.
Proof. intros H12 H23 l Hl. by rewrite H23, H12. Qed.

Lemma src_valid h l : separated h → src l → l < length h.
Proof.
  intros Hsep Hl. destruct (sep_src _ _ _ Hsep l Hl) as (o & Ho & _).
  by eapply lookup_lt_Some.
Qed.

Lemma fresh_outside h : separated h → outside (VRef (length h)).
Proof. intros Hsep Hl. apply (src_valid h) in Hl; [lia|done]. Qed.

Lemma read_outside h v k : separated h → outside v → outside (read h v k).
Proof.
  intros Hsep Hv. destruct v as [| | | |s|l]; try done.
  - destruct k as [i|?]; [|done]. cbn. unfold char_at. by destruct (String.get i s).
  - cbn. destruct (h !! l) as [o|] eqn:E; cbn; [|done].
    apply oget_Forall; [|done]. by eapply sep_tgt.
Qed.

Lemma array_elems_outside h v :
  separated h → outside v → Forall (from_option outside True) (array_elems h v).
Proof.
  intros Hsep Hv. destruct v as [| | | | |l]; try by constructor.
  cbn. destruct (h !! l) as [o|] eqn:E; cbn; [|by constructor].
  by apply (Forall_vals outside o), (sep_tgt _ _ _ Hsep l).
Qed.

(** A member of a source is a scalar or a source of lower rank. *)
Lemma read_inside h v k :
  separated h → inside v →
  inside (read h v k) ∧ (rank (read h v k) = 0 ∨ rank (read h v k) < rank v).
Proof.
  intros Hsep Hv. destruct v as [| | | |s|l]; try (split; [done|by left]).
  - destruct k as [i|?]; [|split; [done|by left]]. cbn. unfold char_at.
    destruct (String.get i s); split; done || by left.
  - destruct (sep_src _ _ _ Hsep l Hv) as (o & Ho & _ & Hvals).
    cbn [read]. rewrite Ho. cbn [from_option].
    apply (oget_Forall (fun x => inside x ∧ (rank x = 0 ∨ rank x < rank (VRef l))) o k).
    + eapply Forall_impl; [exact Hvals|]. cbn. intros x [Hx Hr]. split; [done|]. right. lia.
    + split; [done|by left].
Qed.

Lemma elem_inside h l i e :
  separated h → src l → array_elems h (VRef l) !! i = Some (Some e) →
  inside e ∧ rank e < rank (VRef l).
Proof.
  intros Hsep Hl He.
  destruct (sep_src _ _ _ Hsep l Hl) as (o & Ho & _ & Hvals).
  cbn in He. rewrite Ho in He. cbn in He.
  apply Forall_vals in Hvals as [Hvals _].
  pose proof (Forall_lookup_1 _ _ _ _ Hvals He) as [Hx Hr]. cbn. split; [done|lia].
Qed.

(** A source is a plain object or an array. *)
Lemma src_container h l :
  separated h → src l →
  typeof_object h (VRef l) = true
  ∧ isPlainObject h (VRef l) || isArray h (VRef l) = true
  ∧ isFunction h (VRef l) = false.
Proof.
  intros Hsep Hl. destruct (sep_src _ _ _ Hsep l Hl) as (o & Ho & Hk & _).
  unfold typeof_object, isPlainObject, isArray, isFunction, kind_of. rewrite Ho. cbn.
  destruct Hk as [-> | ->]; done.
Qed.

Lemma separated_alloc h o :
  separated h → Forall outside (vals o) →
  separated (alloc h o).1 ∧ extends h (alloc h o).1 ∧ outside (alloc h o).2.
Proof.
  intros Hsep Ho. unfold alloc; cbn [fst snd]. split; [|split].
  - split.
    + intros l Hl. destruct (sep_src _ _ _ Hsep l Hl) as (o' & Ho' & Hrest).
      exists o'. split; [|done]. by apply lookup_app_l_Some.
    + intros l o' Hl Hlook. apply lookup_app_Some in Hlook as [Hlook|[Hlen Hlook]].
      * by eapply sep_tgt.
      * apply list_lookup_singleton_Some in Hlook as [_ <-]. done.
  - intros l Hl. apply lookup_app_l. by eapply src_valid.
  - by apply fresh_outside.
Qed.

Lemma separated_update h t o o' :
  separated h → ¬ src t → h !! t = Some o → Forall outside (vals o') →
  separated (<[t := o']> h) ∧ extends h (<[t := o']> h).
Proof.
  intros Hsep Ht Ho Ho'. split.
  - split.
    + intros l Hl. destruct (sep_src _ _ _ Hsep l Hl) as (o1 & Ho1 & Hrest).
      exists o1. split; [|done]. rewrite list_lookup_insert_ne; [done|].
      intros <-. done.
    + intros l o1 Hl Hlook. destruct (decide (t = l)) as [<-|Hne].
      * rewrite list_lookup_insert_eq in Hlook by (by eapply lookup_lt_Some).
        by injection Hlook as <-.
      * rewrite list_lookup_insert_ne in Hlook by done. by eapply sep_tgt.
  - intros l Hl. apply list_lookup_insert_ne. intros <-. done.
Qed.

Lemma separated_write h t k x :
  separated h → outside t → outside x →
  separated (write h t k x) ∧ extends h (write h t k x).
Proof.
  intros Hsep Ht Hx. destruct t as [| | | | |t]; try (split; [done|apply extends_refl]).
  cbn. destruct (h !! t) as [o|] eqn:E; cbn; [|split; [done|apply extends_refl]].
  apply (separated_update h t o); try done.
  apply Forall_vals_oset; [|done]. by eapply sep_tgt.
Qed.

Lemma separated_push h a e :
  separated h → outside a → outside e →
  separated (push h a e) ∧ extends h (push h a e).
Proof.
  intros Hsep Ha He. destruct a as [| | | | |t]; try (split; [done|apply extends_refl]).
  cbn. destruct (h !! t) as [o|] eqn:E; cbn; [|split; [done|apply extends_refl]].
  apply (separated_update h t o); try done.
  pose proof (sep_tgt _ _ _ Hsep t o Ha E) as Ho.
  apply Forall_vals in Ho as [Ho1 Ho2]. apply Forall_vals. cbn. split; [|done].
  apply Forall_app. split; [done|]. by constructor.
Qed.

Lemma separated_resolved h v :
  separated h → outside v →
  separated (resolved h v).1 ∧ extends h (resolved h v).1 ∧ outside (resolved h v).2
  ∧ ∃ l, (resolved h v).2 = VRef l.
Proof.
  intros Hsep Hv.
  assert (separated (alloc h empty_plain).1 ∧ extends h (alloc h empty_plain).1
          ∧ outside (alloc h empty_plain).2 ∧ ∃ l, (alloc h empty_plain).2 = VRef l) as Ha.
  { destruct (separated_alloc h empty_plain Hsep) as (? & ? & ?); [by constructor|].
    split; [done|]. split; [done|]. split; [done|]. by eexists. }
  destruct v as [| | | | |l]; try exact Ha.
  cbn. split; [done|]. split; [apply extends_refl|]. split; [done|]. by eexists.
Qed.

Lemma merge_keys_separated recur target source names :
  outside target → inside source →
  (∀ h clone e, separated h → outside clone → inside e → rank e < rank source →
                framed h (recur h clone e)) →
  ∀ h, separated h →
  ∃ h', merge_keys recur true target source h names = Some h'
        ∧ separated h' ∧ extends h h'.
Proof.
  intros Ht Hs Hrec. induction names as [|name names IH]; intros h Hsep.
  { exists h. split; [done|]. split; [done|apply extends_refl]. }
  cbn [merge_keys]. unfold merge_key.
  set (copy := read h source name). set (from := read h target name).
  destruct (read_inside h source name Hsep Hs) as [Hci Hcr]. fold copy in Hci, Hcr.
  assert (outside from) as Hfrom by (by apply read_outside).
  assert (∀ h1, separated h1 → extends h h1 →
            ∃ h', merge_keys recur true target source h1 names = Some h'
                  ∧ separated h' ∧ extends h h') as Hnext.
  { intros h1 Hsep1 Hext1. destruct (IH h1 Hsep1) as (h' & Hm & Hsep' & Hext').
    exists h'. split; [done|]. split; [done|]. by eapply extends_trans. }
  destruct (strict_eq target copy); cbn [mbind option_bind].
  { apply Hnext; [done|apply extends_refl]. }
  destruct (true && truthy copy && (isPlainObject h copy || isArray h copy)) eqn:Hc.
  - apply andb_prop in Hc as [_ Hc].
    destruct (container_is_ref _ _ Hc) as [c Hcopy].
    assert (rank copy < rank source) as Hlt.
    { destruct Hcr as [Hz|?]; [|done]. rewrite Hcopy in Hz. done. }
    match goal with
    | |- context [let '(h1, clone) := ?e in _] =>
        assert (separated e.1 ∧ extends h e.1 ∧ outside e.2) as (Hsep1 & Hext1 & Hclone);
        [|destruct e as [h1 clone]; cbn [fst snd] in *]
    end.
    { destruct (isPlainObject h copy);
        match goal with
        | |- context [if ?b then (h, from) else alloc h ?o] =>
            destruct b; cbn [fst snd];
            [split; [done|]; split; [apply extends_refl|done]
            |apply separated_alloc; [done|by constructor]]
        end. }
    destruct (Hrec h1 clone copy Hsep1 Hclone Hci Hlt) as (h2 & r & -> & Hsep2 & Hext2 & Hr).
    cbn [mbind option_bind].
    destruct (separated_write h2 target name r Hsep2 Ht Hr) as [Hsep3 Hext3].
    apply Hnext; [done|]. eapply extends_trans; [|exact Hext3].
    by eapply extends_trans.
  - destruct (negb (strict_eq copy VUndef)).
    + assert (outside copy) as Hco.
      { destruct copy as [| | | | |c] eqn:Hcopy; try done.
        destruct (src_container h c Hsep Hci) as (_ & Hk & _).
        rewrite Hk in Hc. cbn in Hc. done. }
      destruct (separated_write h target name copy Hsep Ht Hco) as [Hsep3 Hext3].
      by apply Hnext.
    + apply Hnext; [done|apply extends_refl].
Qed.

(** [$.extend(true, target, source)] on a source kept apart. *)
Lemma jQuery_extend_separated n : ∀ h target source,
  separated h → outside target → inside source → rank source + 1 ≤ n →
  framed h (jQuery_extend n this h [VBool true; target; source]).
Proof.
  induction n as [|n IH]; intros h target source Hsep Ht Hs Hn; [lia|].
  rewrite jQuery_extend_deep.
  destruct (separated_resolved h target Hsep Ht) as (Hsep1 & Hext1 & Ht1 & _).
  destruct (resolved h target) as [h1 t1]. cbn [fst snd] in *.
  cbn [jq_merge_sources]. unfold jq_merge_source.
  destruct (strict_eq source VNull || strict_eq source VUndef); cbn [mbind option_bind].
  { exists h1, t1. done. }
  destruct (merge_keys_separated
              (fun h clone copy => jQuery_extend n this h [VBool true; clone; copy])
              t1 source (keys h1 source) Ht1 Hs) with (h := h1)
    as (h' & -> & Hsep' & Hext'); [|done|].
  { intros h0 clone e Hsep0 Hclone He Hlt. apply IH; try done. lia. }
  cbn [mbind option_bind]. exists h', t1.
  split; [done|]. split; [done|]. split; [by eapply extends_trans|done].
Qed.

Lemma for_each_separated f l indices :
  src l →
  (∀ h i e, separated h → inside e → rank e < rank (VRef l) →
            ∃ h', f h i e = Some h' ∧ separated h' ∧ extends h h') →
  ∀ h, separated h →
  ∃ h', for_each f (VRef l) h indices = Some h' ∧ separated h' ∧ extends h h'.
Proof.
  intros Hl Hf. induction indices as [|i indices IH]; intros h Hsep.
  { exists h. split; [done|]. split; [done|apply extends_refl]. }
  cbn [for_each].
  destruct (array_elems h (VRef l) !! i) as [[e|]|] eqn:He; try by apply IH.
  destruct (elem_inside h l i e Hsep Hl He) as [Hei Her].
  destruct (Hf h i e Hsep Hei Her) as (h1 & -> & Hsep1 & Hext1).
  cbn [mbind option_bind].
  destruct (IH h1 Hsep1) as (h' & Hm & Hsep' & Hext').
  exists h'. split; [done|]. split; [done|]. by eapply extends_trans.
Qed.

Lemma extend_elem_separated rec m clone l :
  outside clone →
  (∀ h target e, separated h → outside target → inside e → rank e < rank (VRef l) →
                 framed h (rec h [VBool true; VStr m; target; e])) →
  ∀ h i e, separated h → inside e → rank e < rank (VRef l) →
  ∃ h', extend_elem rec true m clone h i e = Some h' ∧ separated h' ∧ extends h h'.
Proof.
  intros Hclone Hrec h i e Hsep He Hlt. unfold extend_elem.
  destruct (typeof_object h e) eqn:Hty.
  - match goal with
    | |- context [let '(h1, type) := ?a in _] =>
        assert (separated a.1 ∧ extends h a.1 ∧ outside a.2) as (Hsep1 & Hext1 & Htype);
        [|destruct a as [h1 type]; cbn [fst snd] in *]
    end.
    { apply separated_alloc; [done|]. destruct (isArray h e); by constructor. }
    set (ci := read h1 clone (Idx i)).
    assert (outside (if truthy ci then ci else type)) as Harg.
    { destruct (truthy ci); [by apply read_outside|done]. }
    assert (inside e) as He1 by done.
    destruct (Hrec h1 _ e Hsep1 Harg He1 Hlt) as (h2 & r & -> & Hsep2 & Hext2 & Hr).
    cbn [mbind option_bind].
    destruct (separated_write h2 clone (Idx i) r Hsep2 Hclone Hr) as [Hsep3 Hext3].
    eexists. split; [done|]. split; [done|].
    eapply extends_trans; [|exact Hext3]. by eapply extends_trans.
  - assert (outside e) as Heo.
    { destruct e as [| | | | |c] eqn:Heq; try done.
      destruct (src_container h c Hsep He) as (Hk & _). by rewrite Hk in Hty. }
    case_bool_decide.
    + destruct (separated_push h clone e Hsep Hclone Heo) as [Hsep3 Hext3].
      by eexists.
    + exists h. split; [done|]. split; [done|apply extends_refl].
Qed.

Lemma concat_separated h a x :
  separated h → outside a → outside x →
  separated (concat h a x).1 ∧ extends h (concat h a x).1 ∧ outside (concat h a x).2.
Proof.
  intros Hsep Ha Hx. unfold concat. apply separated_alloc; [done|].
  apply Forall_vals. cbn. split; [|by constructor].
  apply Forall_app. split; [by apply array_elems_outside|].
  destruct (isArray h x); [by apply array_elems_outside|by constructor].
Qed.

Lemma merge_source_separated n m h target source :
  separated h → m ∈ array_modes → outside target → inside source →
  (∀ h target e, separated h → outside target → inside e → rank e < rank source →
                 framed h (extendext n this h [VBool true; VStr m; target; e])) →
  rank source + 1 ≤ n →
  framed h (merge_source (extendext n this) (jQuery_extend n this) true m h target source).
Proof.
  intros Hsep Hm Ht Hs Hrec Hn. unfold merge_source.
  destruct (strict_eq source VNull).
  { exists h, target. split; [done|]. split; [done|]. split; [apply extends_refl|done]. }
  destruct (isArray h source && negb (String.eqb m "default")) eqn:Harr.
  - apply andb_prop in Harr as [Harr Hmode].
    destruct source as [| | | | |l]; try done.
    match goal with
    | |- context [let '(h1, clone) := ?a in _] =>
        assert (separated a.1 ∧ extends h a.1 ∧ outside a.2) as (Hsep1 & Hext1 & Hclone);
        [|destruct a as [h1 clone]; cbn [fst snd] in *]
    end.
    { destruct (truthy target && isArray h target); cbn [fst snd].
      - split; [done|]. split; [apply extends_refl|done].
      - apply separated_alloc; [done|by constructor]. }
    assert (rank (VRef l) + 1 ≤ n) as Hn1 by done.
    assert (inside (VRef l)) as Hs1 by done.
    apply array_modes_cases in Hm as [-> | [-> | [-> | ->]]]; [done| | |].
    + cbn [String.eqb Ascii.eqb Bool.eqb].
      destruct (separated_alloc h1 empty_array Hsep1) as (Hsep2 & Hext2 & Hfresh);
        [by constructor|].
      destruct (alloc h1 empty_array) as [h2 fresh]. cbn [fst snd] in *.
      destruct (jQuery_extend_separated n h2 fresh (VRef l) Hsep2 Hfresh Hs1 Hn1)
        as (h3 & copy & -> & Hsep3 & Hext3 & Hcopy).
      cbn [mbind option_bind].
      assert (outside clone) as Hclone1 by done.
      destruct (concat_separated h3 clone copy Hsep3 Hclone1 Hcopy) as (Hsep4 & Hext4 & Hr).
      destruct (concat h3 clone copy) as [h4 r]. cbn [fst snd] in *.
      exists h4, r. split; [done|]. split; [done|]. split; [|done].
      repeat (eapply extends_trans; [eassumption|]). apply extends_refl.
    + cbn [String.eqb Ascii.eqb Bool.eqb].
      destruct (separated_alloc h1 empty_array Hsep1) as (Hsep2 & Hext2 & Hfresh);
        [by constructor|].
      destruct (alloc h1 empty_array) as [h2 fresh]. cbn [fst snd] in *.
      destruct (jQuery_extend_separated n h2 fresh (VRef l) Hsep2 Hfresh Hs1 Hn1)
        as (h3 & copy & -> & Hsep3 & Hext3 & Hcopy).
      exists h3, copy. split; [done|]. split; [done|]. split; [|done].
      repeat (eapply extends_trans; [eassumption|]). apply extends_refl.
    + cbn [String.eqb Ascii.eqb Bool.eqb].
      destruct (for_each_separated (extend_elem (extendext n this) true "extend" clone) l
                  (seq 0 (length (array_elems h1 (VRef l)))) Hs)
        with (h := h1) as (h2 & -> & Hsep2 & Hext2); [|done|].
      { apply extend_elem_separated; [done|]. intros. by apply Hrec. }
      cbn [mbind option_bind]. exists h2, clone.
      split; [done|]. split; [done|]. split; [by eapply extends_trans|done].
  - destruct (merge_keys_separated
                (fun h clone copy => extendext n this h [VBool true; VStr m; clone; copy])
                target source (keys h source) Ht Hs) with (h := h)
      as (h' & -> & Hsep' & Hext'); [|done|].
    { intros. by apply Hrec. }
    cbn [mbind option_bind]. by exists h', target.
Qed.

(** [$.extendext(true, mode, target, source)] on a source kept apart: with
    a call stack two deeper than the source is nested, the call returns;
    the sources are as they were and none of them is part of what the
    target refers to. *)
Lemma extendext_separated n : ∀ h m target source,
  separated h → m ∈ array_modes → outside target → inside source → rank source + 2 ≤ n →
  framed h (extendext n this h [VBool true; VStr m; target; source]).
Proof.
  induction n as [|n IH]; intros h m target source Hsep Hm Ht Hs Hn; [lia|].
  rewrite extendext_deep_mode by done.
  destruct (separated_resolved h target Hsep Ht) as (Hsep1 & Hext1 & Ht1 & _).
  destruct (resolved h target) as [h1 t1]. cbn [fst snd] in *.
  cbn [merge_sources].
  destruct (merge_source_separated n m h1 t1 source Hsep1 Hm Ht1 Hs)
    as (h2 & r & -> & Hsep2 & Hext2 & Hr); [|lia|].
  { intros h0 target0 e Hsep0 Ht0 He Hlt. apply IH; try done. lia. }
  cbn [mbind option_bind]. exists h2, r.
  split; [done|]. split; [done|]. split; [by eapply extends_trans|done].
Qed.

(** The loop over several sources, each kept apart. *)
Lemma merge_sources_separated n m sources : ∀ h target,
  separated h → m ∈ array_modes → outside target →
  Forall (fun s => inside s ∧ rank s + 2 ≤ S n) sources →
  framed h (merge_sources (extendext n this) (jQuery_extend n this) true m h target sources).
Proof.
  induction sources as [|s sources IH]; intros h target Hsep Hm Ht Hs.
  { exists h, target. split; [done|]. split; [done|]. split; [apply extends_refl|done]. }
  apply Forall_cons in Hs as [[Hs Hr] Hrest].
  cbn [merge_sources].
  destruct (merge_source_separated n m h target s Hsep Hm Ht Hs)
    as (h1 & t1 & -> & Hsep1 & Hext1 & Ht1); [|lia|].
  { intros h0 target0 e Hsep0 Ht0 He Hlt. apply extendext_separated; try done. lia. }
  cbn [mbind option_bind].
  destruct (IH h1 t1 Hsep1 Hm Ht1 Hrest) as (h2 & r & -> & Hsep2 & Hext2 & Hr2).
  exists h2, r. split; [done|]. split; [done|]. split; [by eapply extends_trans|done].
Qed.

Lemma isArray_extends h h' s : extends h h' → inside s → isArray h' s = isArray h s.
Proof.
  intros Hext Hs. destruct s as [| | | | |l]; try done.
  unfold isArray, kind_of. by rewrite (Hext l Hs).
Qed.

(** Unless an array-like source meets an array mode, a source is merged
    into the target and the target is what is kept. *)
Lemma merge_source_keeps_target rec jqe deep m h target s h' r :
  m = "default" ∨ isArray h s = false →
  merge_source rec jqe deep m h target s = Some (h', r) → r = target.
Proof.
  intros Hm. unfold merge_source.
  destruct (strict_eq s VNull); [by intros [= _ <-]|].
  assert (isArray h s && negb (String.eqb m "default") = false) as ->.
  { destruct Hm as [-> | ->]; [apply andb_false_r|done]. }
  destruct (merge_keys _ _ _ _ _ _); cbn; [by intros [= _ <-]|done].
Qed.

Lemma merge_sources_keep_target n m sources : ∀ h target,
  separated h → m ∈ array_modes → outside target →
  Forall (fun s => inside s ∧ rank s + 2 ≤ S n ∧ (m = "default" ∨ isArray h s = false))
         sources →
  ∃ h', merge_sources (extendext n this) (jQuery_extend n this) true m h target sources
        = Some (h', target)
        ∧ separated h' ∧ extends h h'.
Proof.
  induction sources as [|s sources IH]; intros h target Hsep Hm Ht Hs.
  { exists h. split; [done|]. split; [done|apply extends_refl]. }
  apply Forall_cons in Hs as [(Hs & Hr & Harr) Hrest].
  cbn [merge_sources].
  destruct (merge_source_separated n m h target s Hsep Hm Ht Hs)
    as (h1 & t1 & Heq & Hsep1 & Hext1 & Ht1); [|lia|].
  { intros h0 target0 e Hsep0 Ht0 He Hlt. apply extendext_separated; try done. lia. }
  rewrite Heq. apply merge_source_keeps_target in Heq as ->; [|done].
  cbn [mbind option_bind].
  destruct (IH h1 target Hsep1 Hm Ht) as (h2 & -> & Hsep2 & Hext2).
  { eapply Forall_impl; [exact Hrest|]. cbn. intros x (Hx & Hrx & Hax).
    split; [done|]. split; [done|].
    destruct Hax as [?|Hax]; [by left|right]. by rewrite (isArray_extends h h1). }
  exists h2. split; [done|]. split; [done|]. by eapply extends_trans.
Qed.

(** Nothing that can be reached from a value outside the sources is a
    source. *)
Lemma reach_outside h v l : separated h → outside v → reach h v l → ¬ src l.
Proof.
  intros Hsep Hv Hreach. induction Hreach as [l|l o x l' Ho Hx Hreach IH]; [done|].
  apply IH. pose proof (sep_tgt _ _ _ Hsep l o Hv Ho) as Hall.
  by apply (proj1 (Forall_forall _ _) Hall).
Qed.

End frame.

(** ** Shallow merges *)



(** ** The stores of the examples *)

Lemma store_nested_separated : separated src_nested id store_nested.
Proof.
  split.
  - intros l [-> | ->]; eexists; (split; [reflexivity|]); (split; [auto|]);
      repeat constructor; unfold src_nested; cbn; auto.
  - intros l o Hl Hlook.
    destruct l as [|[|[|[|l]]]]; cbn in Hlook; try done.
    1-2: injection Hlook as <-; repeat constructor.
    all: exfalso; apply Hl; unfold src_nested; auto.
Qed.









(** ** A source that contains itself *)


(** ** Cloning an array of scalars *)

Lemma present_from_somes k (vs : list value) :
  present_from k (Some <$> vs) = seq k (length vs).
Proof.
  revert k. induction vs as [|v vs IH]; intros k; cbn; [done|]. by rewrite IH.
Qed.

Lemma scalar_not_container h v :
  scalar v → isPlainObject h v || isArray h v = false.
Proof. by destruct v. Qed.

Lemma clone_elements recur f s vs : ∀ rest done_ (h : list obj),
  vs = done_ ++ rest → Forall scalar rest → f ≠ s →
  h !! f = Some (Obj KArray (Some <$> done_) []) →
  h !! s = Some (Obj KArray (Some <$> vs) []) →
  merge_keys recur true (VRef f) (VRef s) h (Idx <$> seq (length done_) (length rest))
  = Some (<[f := Obj KArray (Some <$> vs) []]> h).
Proof.
  induction rest as [|v rest IH]; intros done_ h Hvs Hsc Hne Hf Hs.
  { cbn. rewrite app_nil_r in Hvs. subst vs. by rewrite list_insert_id. }
  apply Forall_cons in Hsc as [Hv Hrest].
  cbn [length seq fmap list_fmap merge_keys]. unfold merge_key.
  assert (read h (VRef s) (Idx (length done_)) = v) as ->.
  { cbn [read]. rewrite Hs. cbn [from_option oget elems].
    rewrite list_lookup_fmap, Hvs, list_lookup_middle by done. done. }
  unfold strict_eq. rewrite bool_decide_eq_false_2 by (by destruct v).
  rewrite scalar_not_container by done. rewrite andb_false_r.
  rewrite bool_decide_eq_false_2 by (by destruct v).
  cbn [negb mbind option_bind]. cbn [write]. rewrite Hf. cbn [from_option oset cls elems named].
  assert (elems_set (length done_) v (Some <$> done_) = Some <$> (done_ ++ [v])) as ->.
  { unfold elems_set. rewrite length_fmap. rewrite decide_False by lia.
    rewrite Nat.sub_diag. cbn. by rewrite fmap_app. }
  pose proof (lookup_lt_Some _ _ _ Hf) as Hlt.
  replace (S (length done_)) with (length (done_ ++ [v])) by (rewrite length_app; cbn; lia).
  rewrite (IH (done_ ++ [v])).
  - by rewrite list_insert_insert_eq.
  - by rewrite <- app_assoc.
  - done.
  - done.
  - by rewrite list_lookup_insert_eq.
  - by rewrite list_lookup_insert_ne.
Qed.

(** [$.extend(true, [], source)] for a source array of scalars. *)
Lemma clone_scalar_array n this (h : list obj) f s vs :
  f ≠ s → h !! f = Some empty_array → h !! s = Some (Obj KArray (Some <$> vs) []) →
  Forall scalar vs →
  jQuery_extend (S n) this h [VBool true; VRef f; VRef s]
  = Some (<[f := Obj KArray (Some <$> vs) []]> h, VRef f).
Proof.
  intros Hne Hf Hs Hsc. rewrite jQuery_extend_deep.
  cbn [resolved fst snd jq_merge_sources]. unfold jq_merge_source.
  change (strict_eq (VRef s) VNull || strict_eq (VRef s) VUndef) with false. cbn match.
  unfold keys. rewrite Hs. cbn [from_option]. unfold okeys. cbn [elems named].
  rewrite present_from_somes. cbn [fmap list_fmap]. rewrite app_nil_r.
  rewrite (clone_elements _ f s vs vs [] h); try done.
Qed.

(** ** What a deep call returns *)

Lemma merge_key_grows recur deep target options h name h' :
  (∀ h c x h' r, recur h c x = Some (h', r) → length h ≤ length h') →
  merge_key recur deep target options h name = Some h' → length h ≤ length h'.
Proof.
  intros Hrec. unfold merge_key.
  destruct (strict_eq target _); [by intros [= <-]|].
  destruct (deep && _ && _).
  - match goal with
    | |- context [let '(h1, clone) := ?e in _] =>
        assert (length h ≤ length e.1) as Hlen; [|destruct e as [h1 clone]; cbn [fst] in Hlen]
    end.
    { destruct (isPlainObject h _);
        match goal with |- context [if ?b then _ else _] => destruct b end;
        unfold alloc; cbn [fst]; rewrite ?length_app; cbn [length]; lia. }
    destruct (recur h1 clone _) as [[h2 r]|] eqn:Hr; cbn [mbind option_bind]; [|done].
    intros [= <-]. rewrite length_write. apply Hrec in Hr. lia.
  - destruct (negb _); intros [= <-]; rewrite ?length_write; lia.
Qed.

Lemma merge_keys_grows recur deep target options names :
  (∀ h c x h' r, recur h c x = Some (h', r) → length h ≤ length h') →
  ∀ h h', merge_keys recur deep target options h names = Some h' → length h ≤ length h'.
Proof.
  intros Hrec. induction names as [|name names IH]; intros h h'; cbn [merge_keys].
  { by intros [= <-]. }
  destruct (merge_key recur deep target options h name) as [h1|] eqn:Hk;
    cbn [mbind option_bind]; [|done].
  intros Hm. apply (merge_key_grows _ _ _ _ _ _ _ Hrec) in Hk. apply IH in Hm. lia.
Qed.

(** [$.extend(true, target, source)] returns its target and allocates
    only. *)
Lemma jQuery_extend_grows n this : ∀ h t s h' r,
  jQuery_extend n this h [VBool true; t; s] = Some (h', r) →
  length h ≤ length h' ∧ r = (resolved h t).2.
Proof.
  induction n as [|n IH]; intros h t s h' r; [done|].
  rewrite jQuery_extend_deep.
  assert (length h ≤ length (resolved h t).1) as Hlen.
  { destruct t; cbn [resolved alloc fst]; unfold alloc; cbn [fst];
      rewrite ?length_app; cbn [length]; lia. }
  destruct (resolved h t) as [h1 t1]. cbn [fst snd] in *.
  cbn [jq_merge_sources]. unfold jq_merge_source.
  destruct (strict_eq s VNull || strict_eq s VUndef); cbn [mbind option_bind].
  { by intros [= <- <-]. }
  destruct (merge_keys _ _ _ _ _ _) as [h2|] eqn:Hm; cbn [mbind option_bind]; [|done].
  intros [= <- <-]. split; [|done].
  apply merge_keys_grows in Hm; [lia|].
  intros h0 c x h0' r0 Hr. by apply IH in Hr as [? _].
Qed.

(** A deep call never returns its source, unless the source is what it was
    given as target: it returns the target or an object that did not exist
    before. *)
Lemma deep_call_returns n this h m clone c h' r :
  m ∈ array_modes → c < length h →
  extendext n this h [VBool true; VStr m; clone; VRef c] = Some (h', r) →
  r = clone ∨ ∃ l, r = VRef l ∧ length h ≤ l.
Proof.
  intros Hm Hc. destruct n as [|n]; [done|].
  rewrite extendext_deep_mode by done.
  assert (length h ≤ length (resolved h clone).1
          ∧ ((resolved h clone).2 = clone
             ∨ ∃ l, (resolved h clone).2 = VRef l ∧ length h ≤ l)) as [Hlen Ht].
  { destruct clone; cbn [resolved fst snd]; unfold alloc; cbn [fst snd];
      rewrite ?length_app; cbn [length]; (split; [lia|]); eauto. }
  destruct (resolved h clone) as [h1 t1]. cbn [fst snd] in *.
  cbn [merge_sources].
  destruct (merge_source _ _ true m h1 t1 (VRef c)) as [[h2 r2]|] eqn:Hs;
    cbn [mbind option_bind]; [|done].
  intros [= <- <-]. revert Hs. unfold merge_source.
  change (strict_eq (VRef c) VNull) with false. cbn match.
  destruct (isArray h1 (VRef c) && negb (String.eqb m "default")).
  - assert (∀ b : bool,
              (if b then (h1, t1) else alloc h1 empty_array).2 = t1
              ∨ ∃ l, (if b then (h1, t1) else alloc h1 empty_array).2 = VRef l
                     ∧ length h ≤ l) as Hclone.
    { intros []; [by left|right]. eexists. split; [done|]. done. }
    specialize (Hclone (truthy t1 && isArray h1 t1)).
    assert (length h ≤ length (if truthy t1 && isArray h1 t1
                               then (h1, t1) else alloc h1 empty_array).1) as Hlen1.
    { destruct (truthy t1 && isArray h1 t1); unfold alloc; cbn [fst];
        rewrite ?length_app; lia. }
    destruct (if truthy t1 && isArray h1 t1 then (h1, t1) else alloc h1 empty_array)
      as [h1' clone']. cbn [fst snd] in *.
    destruct (String.eqb m "concat").
    { unfold alloc at 1.
      destruct (jQuery_extend n this _ _) as [[h3 copy]|] eqn:Hj;
        cbn [mbind option_bind]; [|done].
      apply jQuery_extend_grows in Hj as [Hj _]. rewrite length_app in Hj.
      unfold concat, alloc. intros [= <- <-]. right. eexists. split; [done|]. lia. }
    destruct (String.eqb m "replace").
    { unfold alloc at 1. intros Hj. apply jQuery_extend_grows in Hj as [_ ->].
      cbn [resolved snd]. right. eexists. split; [done|]. lia. }
    destruct (String.eqb m "extend").
    { destruct (for_each _ _ _ _); cbn [mbind option_bind]; [|done].
      intros [= <- <-]. destruct Hclone as [->|Hclone]; [|by right].
      destruct Ht as [->|Ht]; [by left|by right]. }
    intros [= <- <-]. destruct Ht as [->|Ht]; [by left|by right].
  - destruct (merge_keys _ _ _ _ _ _); cbn [mbind option_bind]; [|done].
    intros [= <- <-]. destruct Ht as [->|Ht]; [by left|by right].
Qed.

(** * The claims *)

(** ** C3: the guard of the key loop *)




(** ** C6: a structure merged into itself *)




(** ** C8: undefined values in a source *)



(** ** C1: a call without sources *)




(** ** C2: the value returned *)




(** ** C7: no container of a source in the result *)

(** C7, as stated, fails.  The target [{k: x}] at 3 and the source
    [{k: x}] at 4 hold the same plain object [x]; after the deep merge the
    target's [k] is still the source's own container. *)
Lemma deep_alias_counterexample :
  ∃ h', extendext 4 jq store_shared [VBool true; VRef 3; VRef 4] = Some (h', VRef 3)
        ∧ isPlainObject h' (read h' (VRef 4) (Name "k")) = true
        ∧ read h' (VRef 3) (Name "k") = read h' (VRef 4) (Name "k").
Proof. eexists. split; [vm_compute; reflexivity|]. split; reflexivity. Qed.

(** C7 (amended): when deep is [true], the recursion into a plain-object-like
    or array-like source value returns, and so writes into the target, the
    working clone it was given (the target's own container under that key,
    or a new one) or a newly created array: never the source's container,
    unless the target already held that very container under the key.  And
    when the sources are kept apart from the target (they are plain objects
    and arrays, finitely nested, that no object outside them refers to),
    the merge returns, no container that can be reached from its result is
    a container of a source, and the sources are left as they were. *)
Theorem deep_merge_no_alias :
  (∀ (n : nat) (this : nat) (h : list obj) (m : string) (clone : value) (c : nat)
     (h' : list obj) (r : value),
     m ∈ array_modes → c < length h → clone ≠ VRef c →
     extendext n this h [VBool true; VStr m; clone; VRef c] = Some (h', r) →
     r ≠ VRef c)
  ∧ (∀ (src : nat → Prop) (rk : nat → nat) (this : nat) (n : nat) (m : string)
       (h : list obj) (target : value) (sources : list value),
       separated src rk h → m ∈ array_modes → outside src target → sources ≠ [] →
       Forall (fun s => inside src s ∧ rank rk s + 2 ≤ S n) sources →
       (∃ h' r, extendext (S n) this h (VBool true :: VStr m :: target :: sources)
                = Some (h', r)
                ∧ (∀ l, reach h' r l → ¬ src l)
                ∧ extends src h h')
       ∧ ∀ t, ¬ src t →
              ∃ h' r, extendext (S n) this h (VBool true :: VRef t :: sources) = Some (h', r)
                      ∧ (∀ l, reach h' r l → ¬ src l)
                      ∧ extends src h h').
Proof.
  split.
  { intros n this h m clone c h' r Hm Hc Hne Hcall.
    destruct (deep_call_returns n this h m clone c h' r Hm Hc Hcall) as [->|(l & -> & Hl)].
    - done.
    - intros [= ->]. lia. }
  intros src rk this n m h target sources Hsep Hm Ht Hne Hs. split.
  - rewrite extendext_deep_mode by done.
    destruct (separated_resolved src rk h target Hsep Ht) as (Hsep1 & Hext1 & Ht1 & _).
    destruct (merge_sources_separated src rk this n m sources
                (resolved h target).1 (resolved h target).2)
      as (h' & r & -> & Hsep' & Hext' & Hr); try done.
    exists h', r. split; [done|]. split.
    + intros l. by apply (reach_outside src rk).
    + by eapply extends_trans.
  - intros t Hnt. rewrite extendext_deep by done.
    destruct (merge_sources_separated src rk this n "default" sources h (VRef t))
      as (h' & r & -> & Hsep' & Hext' & Hr); try done.
    { by apply (parse_array_mode_valid "default"). }
    exists h', r. split; [done|]. split; [|done].
    intros l. by apply (reach_outside src rk).
Qed.

Lemma deep_merge_no_alias_witness :
  (∃ h' r, extendext 6 jq store_nested [VBool true; VStr "default"; VRef 1; VRef 3]
           = Some (h', r)
           ∧ (∀ l, reach h' r l → ¬ src_nested l)
           ∧ extends src_nested store_nested h')
  ∧ ∀ t, ¬ src_nested t →
         ∃ h' r, extendext 6 jq store_nested [VBool true; VRef t; VRef 3] = Some (h', r)
                 ∧ (∀ l, reach h' r l → ¬ src_nested l)
                 ∧ extends src_nested store_nested h'.
Proof.
  apply (proj2 deep_merge_no_alias
           src_nested id jq 5 "default" store_nested (VRef 1) [VRef 3]).
  - apply store_nested_separated.
  - apply (parse_array_mode_valid "default").
  - unfold src_nested. cbn. lia.
  - done.
  - constructor; [|done]. unfold src_nested. cbn. split; [auto|lia].
Defined.

(** ** C9: calls that do not return *)




(** ** C10: a null element under 'extend' *)

(** C10, as stated, fails.  With the clone [[5]] and the source [[null]],
    slot 0 is present before the merge (it holds 5) and holds a new empty
    mapping after it, not the value that was there. *)
Lemma null_element_counterexample :
  read store_null (VRef 1) (Idx 0) = VNum 5
  ∧ ∃ h', extendext 2 jq store_null [VBool true; VStr "extend"; VRef 1; VRef 2]
          = Some (h', VRef 1)
        ∧ reify 2 h' (VRef 1) = Some (arr [object []])
        ∧ read h' (VRef 1) (Idx 0) ≠ read store_null (VRef 1) (Idx 0).
Proof.
  split; [reflexivity|]. eexists. split; [vm_compute; reflexivity|].
  split; [reflexivity|]. cbn. discriminate.
Qed.

(** C10 (amended): under ['extend'] with deep [true], a [null] element at
    index [i] of the source is handled as object-like: it is not appended
    and not looked up in the clone; after the recursive merge, which passes
    over its [null] source, slot [i] of the clone holds an object
    reference: the one it held when it held an object or a function, and
    otherwise (slot absent, or holding a scalar) a new empty mapping.  It
    never holds [null]. *)
Theorem null_element_slot (this : nat) (n : nat) (h : list obj) (c : nat) (oc : obj)
    (i : nat) :
  h !! c = Some oc →
  ∃ h' m, extend_elem (extendext (S n) this) true "extend" (VRef c) h i VNull = Some h'
          ∧ h' !! c = Some (oset oc (Idx i) (VRef m))
          ∧ (oget oc (Idx i) = VRef m
             ∨ ((∀ m', oget oc (Idx i) ≠ VRef m')
                ∧ length h ≤ m ∧ h' !! m = Some empty_plain)).
Proof.
  intros Hc. unfold extend_elem.
  pose proof (lookup_lt_Some _ _ _ Hc) as Hlt.
  cbn [typeof_object]. unfold alloc. change (isArray h VNull) with false. cbn match.
  assert (read (h ++ [empty_plain]) (VRef c) (Idx i) = oget oc (Idx i)) as ->.
  { cbn [read]. by rewrite (lookup_app_l_Some _ _ _ _ Hc). }
  assert ((h ++ [empty_plain]) !! c = Some oc) as Hc1 by (by apply lookup_app_l_Some).
  assert (∀ ci, (∀ m', ci ≠ VRef m') →
            resolved (h ++ [empty_plain]) ci
            = (h ++ [empty_plain] ++ [empty_plain], VRef (S (length h)))) as Hscalar.
  { intros ci Hci. destruct ci; try (by destruct (Hci l)); cbn [resolved]; unfold alloc.
    all: rewrite length_app, <- app_assoc; cbn [length]; repeat f_equal; lia. }
  assert (∀ h1 r, h1 !! c = Some oc →
            ∃ h', Some (write h1 (VRef c) (Idx i) r) = Some h'
                  ∧ h' !! c = Some (oset oc (Idx i) r)
                  ∧ ∀ m, m ≠ c → h' !! m = h1 !! m) as Hwrite.
  { intros h1 r H1. eexists. split; [done|]. split.
    - by apply lookup_write_eq.
    - intros m Hm. by apply lookup_write_ne. }
  destruct (oget oc (Idx i)) as [| |b|z|s|m] eqn:Hci.
  6: { cbn [truthy]. rewrite extendext_deep_mode;
         [|by apply (parse_array_mode_valid "extend")|done].
       cbn [resolved fst snd merge_sources mbind option_bind].
       rewrite merge_source_null. cbn [mbind option_bind].
       destruct (Hwrite (h ++ [empty_plain]) (VRef m) Hc1) as (h' & -> & Hl & _).
       exists h', m. split; [done|]. split; [done|]. by left. }
  all: destruct (truthy _) eqn:Htr.
  all: rewrite extendext_deep_mode; [|by apply (parse_array_mode_valid "extend")|done].
  all: rewrite ?Hscalar by done.
  all: cbn [resolved fst snd merge_sources mbind option_bind].
  all: rewrite merge_source_null; cbn [mbind option_bind].
  all: match goal with
       | |- context [write ?h1 _ _ ?r] =>
           destruct (Hwrite h1 r) as (h' & -> & Hl & Hother);
           [rewrite ?app_assoc; apply lookup_app_l_Some; rewrite <- ?app_assoc; done|]
       end.
  all: eexists h', _; (split; [done|]); (split; [exact Hl|]); right.
  all: (split; [done|]); split;
         [lia|rewrite Hother by lia].
  all: rewrite ?app_assoc; apply list_lookup_middle; rewrite ?length_app; cbn; lia.
Qed.

Lemma null_element_slot_witness :
  ∃ h' m, extend_elem (extendext 1 jq) true "extend" (VRef 1) store_null 0 VNull = Some h'
          ∧ h' !! 1 = Some (oset (Obj KArray [Some (VNum 5)] []) (Idx 0) (VRef m))
          ∧ (oget (Obj KArray [Some (VNum 5)] []) (Idx 0) = VRef m
             ∨ ((∀ m', oget (Obj KArray [Some (VNum 5)] []) (Idx 0) ≠ VRef m')
                ∧ length store_null ≤ m ∧ h' !! m = Some empty_plain)).
Proof.
  apply (null_element_slot jq 0 store_null 1 (Obj KArray [Some (VNum 5)] []) 0).
  reflexivity.
Defined.

(** ** C5: 'concat' *)



(** ** C4: 'extend' *)

(** C4: under ['extend'] an object-like element of the source is to be
    merged into the clone's element at the same index with the same deep
    flag and array mode.  With deep off the code does not do so:
    [$.extendext('extend', [{x:1}], [{y:2}])] passes [false] first to the
    recursive call, where [false || {}] makes a new object the target and
    the mode string, the clone's element and the source element its three
    sources; slot 0 ends up as a new object holding the characters of
    ['extend'] besides [x] and [y], and [{x:1}] itself is not merged into.
    With deep [true] the claim holds on the same input, and so do its two
    examples. *)
Theorem extend_shallow_element :
  (∃ h', extendext 2 jq store_elems [VStr "extend"; VRef 2; VRef 4] = Some (h', VRef 2)
         ∧ reify 2 h' (VRef 2)
           = Some (arr [Node KPlain
                          (Some ∘ Leaf ∘ VStr <$> ["e"; "x"; "t"; "e"; "n"; "d"])
                          [("x", num 1); ("y", num 2)]])
         ∧ read h' (VRef 2) (Idx 0) ≠ VRef 1
         ∧ h' !! 1 = store_elems !! 1)
  ∧ (∃ h', extendext 2 jq store_elems [VBool true; VStr "extend"; VRef 2; VRef 4]
           = Some (h', VRef 2)
           ∧ reify 2 h' (VRef 2) = Some (arr [object [("x", num 1); ("y", num 2)]])
           ∧ read h' (VRef 2) (Idx 0) = VRef 1)
  ∧ call 4 [VBool true; VStr "extend"]
      [object [("a", arr [num 1; num 2])]; object [("a", arr [num 2; num 3])]]
    = Some (object [("a", arr [num 1; num 2; num 3])])
  ∧ call 4 [VBool true; VStr "extend"]
      [object [("a", arr [object [("x", num 1)]])];
       object [("a", arr [object [("y", num 2)]])]]
    = Some (object [("a", arr [object [("x", num 1); ("y", num 2)]])]).
Proof.
  split; [|split; [|split]].
  - eexists. split; [vm_compute; reflexivity|]. split; [reflexivity|].
    split; [cbn; discriminate|reflexivity].
  - eexists. split; [vm_compute; reflexivity|]. split; reflexivity.
  - vm_compute. reflexivity.
  - vm_compute. reflexivity.
Qed.

(** * Array merges *)

Lemma find_index_None e l : ∀ k, find_index e l k = None ↔ Some e ∉ l.
Proof.
  induction l as [|[v|] l IH]; intros k; cbn [find_index].
  - split; [intros _ []%elem_of_nil|done].
  - unfold strict_eq. rewrite not_elem_of_cons. case_bool_decide as Hv.
    + subst v. split; [done|]. by intros [? _].
    + rewrite IH. split; [|by intros [_ ?]]. intros ?. split; [congruence|done].
  - rewrite IH, not_elem_of_cons. split; [done|by intros [_ ?]].
Qed.

Lemma typeof_object_insert (h : list obj) t o o' v :
  h !! t = Some o → cls o' = cls o →
  typeof_object (<[t := o']> h) v = typeof_object h v.
Proof.
  intros Ht Hc. destruct v as [| | | | |l]; try done.
  unfold typeof_object, kind_of. destruct (decide (l = t)) as [->|Hne].
  - rewrite list_lookup_insert_eq by by eapply lookup_lt_Some. rewrite Ht. cbn. by rewrite Hc.
  - by rewrite list_lookup_insert_ne.
Qed.

(** The loop of ['extend'] over source elements that are not object-like. *)
Lemma for_each_extend rec deep m t s nt ns vs : ∀ rest done_ (h : list obj) acc,
  vs = done_ ++ rest → t ≠ s →
  h !! s = Some (Obj KArray (Some <$> vs) ns) →
  h !! t = Some (Obj KArray acc nt) →
  Forall (fun v => typeof_object h v = false) rest →
  for_each (extend_elem rec deep m (VRef t)) (VRef s) h (seq (length done_) (length rest))
  = Some (<[t := Obj KArray (extended acc rest) nt]> h).
Proof.
  induction rest as [|v rest IH]; intros done_ h acc Hvs Hne Hs Ht Hty.
  { cbn. by rewrite list_insert_id. }
  apply Forall_cons in Hty as [Hv Hrest].
  cbn [length seq for_each]. unfold array_elems at 1. rewrite Hs. cbn [from_option elems].
  rewrite list_lookup_fmap, Hvs, list_lookup_middle by done. cbn [fmap option_fmap option_map].
  unfold extend_elem. rewrite Hv. unfold index_of, array_elems. rewrite Ht.
  cbn [from_option elems extended foldl].
  pose proof (lookup_lt_Some _ _ _ Ht) as Hlt.
  case_bool_decide as Hin; cbn [mbind option_bind].
  - apply find_index_None in Hin. rewrite decide_False by done.
    unfold push. rewrite Ht. cbn [from_option cls elems named].
    replace (S (length done_)) with (length (done_ ++ [v])) by (rewrite length_app; cbn; lia).
    rewrite (IH (done_ ++ [v]) _ (acc ++ [Some v])).
    + by rewrite list_insert_insert_eq.
    + by rewrite <- app_assoc.
    + done.
    + by rewrite list_lookup_insert_ne.
    + by rewrite list_lookup_insert_eq.
    + eapply Forall_impl; [exact Hrest|]. cbn. intros x Hx.
      by rewrite (typeof_object_insert h t (Obj KArray acc nt)).
  - rewrite decide_True.
    2:{ destruct (decide (Some v ∈ acc)) as [|Hout]; [done|].
        by apply (find_index_None v acc 0) in Hout. }
    replace (S (length done_)) with (length (done_ ++ [v])) by (rewrite length_app; cbn; lia).
    apply (IH (done_ ++ [v])); try done. by rewrite <- app_assoc.
Qed.

(** [$.extendext(mode, target, sources...)] *)
Lemma extendext_shallow_mode n this h m l srcs :
  m ∈ array_modes → srcs ≠ [] →
  extendext (S n) this h (VStr m :: VRef l :: srcs)
  = merge_sources (extendext n this) (jQuery_extend n this) false m h (VRef l) srcs.
Proof.
  intros Hm Hs. destruct srcs as [|s srcs]; [done|].
  apply array_modes_cases in Hm as [-> | [-> | [-> | ->]]];
    unfold_call; rewrite coerce_target_ref; reflexivity.
Qed.

Lemma extendext_mode n this h deep m l srcs :
  m ∈ array_modes → srcs ≠ [] →
  extendext (S n) this h (flags deep ++ VStr m :: VRef l :: srcs)
  = merge_sources (extendext n this) (jQuery_extend n this) deep m h (VRef l) srcs.
Proof.
  intros Hm Hs. destruct deep; cbn [flags app].
  - by rewrite extendext_deep_mode.
  - by apply extendext_shallow_mode.
Qed.

Lemma merge_extend n this (h : list obj) deep t s tc nt vs ns :
  t ≠ s →
  h !! t = Some (Obj KArray tc nt) →
  h !! s = Some (Obj KArray (Some <$> vs) ns) →
  Forall (fun v => typeof_object h v = false) vs →
  extendext (S n) this h (flags deep ++ [VStr "extend"; VRef t; VRef s])
  = Some (<[t := Obj KArray (extended tc vs) nt]> h, VRef t).
Proof.
  intros Hne Ht Hs Hty.
  rewrite extendext_mode; [|by apply (parse_array_mode_valid "extend")|done].
  cbn [merge_sources]. unfold merge_source.
  change (strict_eq (VRef s) VNull) with false. cbn match.
  unfold isArray, kind_of. rewrite Hs, Ht. cbn [from_option cls truthy andb].
  rewrite bool_decide_eq_true_2 by done.
  cbn [String.eqb Ascii.eqb Bool.eqb negb andb].
  unfold array_elems at 1. rewrite Hs. cbn [from_option elems]. rewrite length_fmap.
  by rewrite (for_each_extend _ deep "extend" t s nt ns vs vs [] h tc).
Qed.

Lemma extended_prefix vs : ∀ tc, ∃ r, extended tc vs = tc ++ r.
Proof.
  induction vs as [|v vs IH]; intros tc; cbn [extended foldl].
  - exists []. by rewrite app_nil_r.
  - destruct (decide (Some v ∈ tc)); [apply IH|].
    destruct (IH (tc ++ [Some v])) as [r Hr]. exists (Some v :: r).
    unfold extended in Hr. by rewrite Hr, <- app_assoc.
Qed.

Lemma extended_contains vs : ∀ tc v, v ∈ vs → Some v ∈ extended tc vs.
Proof.
  induction vs as [|a vs IH]; intros tc v; [by intros ?%elem_of_nil|].
  intros [->|Hin]%elem_of_cons; [|by apply IH]. cbn [extended foldl].
  destruct (decide (Some a ∈ tc)) as [Ha|Ha].
  - destruct (extended_prefix vs tc) as [r Hr]. unfold extended in Hr. rewrite Hr.
    apply elem_of_app. by left.
  - destruct (extended_prefix vs (tc ++ [Some a])) as [r Hr]. unfold extended in Hr.
    rewrite Hr. apply elem_of_app. left. apply elem_of_app. right. apply list_elem_of_here.
Qed.


(** X1. ['extend'] on two arrays, with the deep flag or without: when no
    element of the source is object-like, the call returns the target
    array, to which every source element that was not yet one of its
    elements has been appended, in the order of the source.  The elements
    of the target keep their places, every element of the source is an
    element of the result, and nothing else in the store changes. *)
Theorem extend_appends_missing n this (h : list obj) deep t s tc nt vs ns :
  t ≠ s →
  h !! t = Some (Obj KArray tc nt) →
  h !! s = Some (Obj KArray (Some <$> vs) ns) →
  Forall (fun v => typeof_object h v = false) vs →
  extendext (S n) this h (flags deep ++ [VStr "extend"; VRef t; VRef s])
  = Some (<[t := Obj KArray (extended tc vs) nt]> h, VRef t)
  ∧ (∃ r, extended tc vs = tc ++ r)
  ∧ ∀ v, v ∈ vs → Some v ∈ extended tc vs.
Proof.
  intros Hne Ht Hs Hty. split; [by apply (merge_extend n this h deep t s tc nt vs ns)|].
  split; [apply extended_prefix|apply extended_contains].
Qed.

Lemma extend_appends_missing_witness :
  extendext 1 jq store_arrays (flags true ++ [VStr "extend"; VRef 1; VRef 2])
  = Some (<[1 := Obj KArray (extended [Some (VNum 1); Some (VNum 2)] [VNum 2; VNum 3]) []]>
            store_arrays, VRef 1)
  ∧ (∃ r, extended [Some (VNum 1); Some (VNum 2)] [VNum 2; VNum 3]
          = [Some (VNum 1); Some (VNum 2)] ++ r)
  ∧ ∀ v, v ∈ [VNum 2; VNum 3]
         → Some v ∈ extended [Some (VNum 1); Some (VNum 2)] [VNum 2; VNum 3].
Proof.
  apply (extend_appends_missing 0 jq store_arrays true 1 2
           [Some (VNum 1); Some (VNum 2)] [] [VNum 2; VNum 3] []).
  - lia.
  - reflexivity.
  - reflexivity.
  - repeat constructor.
Defined.



(** ** Arrays without an array mode *)






(** ** ['replace'] and ['concat'] *)




Lemma merge_replace this n (h : list obj) c kt tc nc s vs :
  h !! c = Some (Obj kt tc nc) →
  h !! s = Some (Obj KArray (Some <$> vs) []) →
  Forall scalar vs →
  extendext (S (S n)) this h [VBool true; VStr "replace"; VRef c; VRef s]
  = Some ((if decide (kt = KArray) then h else h ++ [empty_array])
            ++ [Obj KArray (Some <$> vs) []],
          VRef (length (if decide (kt = KArray) then h else h ++ [empty_array]))).
Proof.
  intros Hc Hs Hsc.
  pose proof (lookup_lt_Some _ _ _ Hc) as Hclt.
  pose proof (lookup_lt_Some _ _ _ Hs) as Hslt.
  rewrite extendext_deep_mode; [|by apply (parse_array_mode_valid "replace")|done].
  cbn [resolved fst snd merge_sources]. unfold merge_source.
  change (strict_eq (VRef s) VNull) with false. cbn match.
  unfold isArray, kind_of. rewrite Hs, Hc. cbn [from_option cls truthy andb].
  rewrite (bool_decide_eq_true_2 (Some KArray = Some KArray)) by done.
  cbn [String.eqb Ascii.eqb Bool.eqb negb andb].
  assert ((if bool_decide (Some kt = Some KArray) then (h, VRef c) else alloc h empty_array).1
          = (if decide (kt = KArray) then h else h ++ [empty_array])) as Hh1.
  { case_bool_decide as Hk; destruct (decide (kt = KArray)); try done; congruence. }
  destruct (if bool_decide (Some kt = Some KArray) then (h, VRef c) else alloc h empty_array)
    as [h1 clone]. cbn [fst] in Hh1. rewrite <- Hh1.
  assert (h1 !! s = Some (Obj KArray (Some <$> vs) [])) as Hs1.
  { rewrite Hh1. destruct (decide (kt = KArray)); [done|by apply lookup_app_l_Some]. }
  unfold alloc.
  rewrite (clone_scalar_array n this (h1 ++ [empty_array]) (length h1) s vs);
    [|apply lookup_lt_Some in Hs1; lia|by apply list_lookup_middle
     |by apply lookup_app_l_Some|done].
  cbn [mbind option_bind].
  by rewrite insert_app_r_alt, Nat.sub_diag by lia.
Qed.





(** * The settings of RangeFilter *)

(** X6. The settings computed by [init] are the new object the merge was
    given as target; when the defaults and the options are kept apart from
    the rest of the store (and are no arrays), the call returns, the
    defaults and the options are left as they were, and no container that
    can be reached from the settings is one of theirs. *)
Theorem settings_share_nothing (src : nat → Prop) (rk : nat → nat) n dollar
    (h : list obj) D o :
  separated src rk h → inside src D → inside src o →
  isArray h D = false → isArray h o = false →
  rank rk D + 2 ≤ S n → rank rk o + 2 ≤ S n →
  ∃ h', RangeFilter.settings (S n) dollar h D o = Some (h', VRef (length h))
        ∧ extends src h h'
        ∧ ∀ l, reach h' (VRef (length h)) l → ¬ src l.
Proof.
  intros Hsep HD Ho HaD Hao HrD Hro. unfold RangeFilter.settings, alloc.
  rewrite extendext_deep_mode; [|by apply (parse_array_mode_valid "replace")|done].
  cbn [resolved fst snd].
  destruct (separated_alloc src rk h empty_plain Hsep) as (Hsep1 & Hext1 & Hout1).
  { by apply Forall_nil. }
  unfold alloc in Hsep1, Hext1, Hout1. cbn [fst snd] in Hsep1, Hext1, Hout1.
  destruct (merge_sources_keep_target src rk dollar n "replace" [D; o]
              (h ++ [empty_plain]) (VRef (length h)) Hsep1) as (h' & Heq & Hsep' & Hext').
  - by apply (parse_array_mode_valid "replace").
  - done.
  - apply Forall_cons. split; [|apply Forall_cons; split; [|by apply Forall_nil]].
    + split; [done|]. split; [done|]. right.
      by rewrite (isArray_extends src h (h ++ [empty_plain])).
    + split; [done|]. split; [done|]. right.
      by rewrite (isArray_extends src h (h ++ [empty_plain])).
  - exists h'. split; [done|]. split.
    + intros l Hl. by rewrite Hext', Hext1.
    + intros l. by apply (reach_outside src rk).
Qed.

Lemma settings_share_nothing_witness :
  ∃ h', RangeFilter.settings 6 jq store_nested (VRef 3) VUndef
        = Some (h', VRef (length store_nested))
        ∧ extends src_nested store_nested h'
        ∧ ∀ l, reach h' (VRef (length store_nested)) l → ¬ src_nested l.
Proof.
  apply (settings_share_nothing src_nested id 5 jq store_nested (VRef 3) VUndef
           store_nested_separated).
  - by right.
  - done.
  - reflexivity.
  - reflexivity.
  - cbn. lia.
  - cbn. lia.
Defined.

Lemma read_write_eq (h : list obj) l k x o :
  h !! l = Some o → read (write h (VRef l) k x) (VRef l) k = x.
Proof.
  intros Hl. unfold read. rewrite (lookup_write_eq h l k x o Hl).
  cbn [from_option]. apply oget_oset_eq.
Qed.

Lemma read_write_other (h : list obj) l k x l' k' :
  l ≠ l' → read (write h (VRef l) k x) (VRef l') k' = read h (VRef l') k'.
Proof. intros Hne. unfold read. by rewrite lookup_write_ne. Qed.

Lemma read_alloc (h : list obj) o l k :
  l < length h → read (h ++ [o]) (VRef l) k = read h (VRef l) k.
Proof. intros Hl. unfold read. by rewrite lookup_app_l. Qed.

(** The settings after the defaults [{filters: []}] were merged into them. *)

Lemma settings_defaults n dollar (h : list obj) d f :
  h !! d = Some (Obj KPlain [] [("filters", VRef f)]) →
  h !! f = Some empty_array →
  merge_source (extendext (S (S n)) dollar) (jQuery_extend (S (S n)) dollar) true "replace"
    (h ++ [empty_plain]) (VRef (length h)) (VRef d)
  = Some (h ++ [Obj KPlain [] [("filters", VRef (S (S (length h))))];
                empty_array; empty_array], VRef (length h)).
Proof.
  intros Hd Hf.
  pose proof (lookup_lt_Some _ _ _ Hd) as Hdlt.
  pose proof (lookup_lt_Some _ _ _ Hf) as Hflt.
  rewrite merge_source_not_array.
  2:{ unfold isArray, kind_of. by rewrite (lookup_app_l_Some _ _ _ _ Hd). }
  change (strict_eq (VRef d) VNull) with false. cbn match.
  unfold keys. rewrite (lookup_app_l_Some _ _ _ _ Hd).
  cbn [from_option okeys elems named present_from fmap list_fmap app compose fst merge_keys].
  unfold merge_key.
  assert (read (h ++ [empty_plain]) (VRef d) (Name "filters") = VRef f) as ->.
  { unfold read. by rewrite (lookup_app_l_Some _ _ _ _ Hd). }
  assert (read (h ++ [empty_plain]) (VRef (length h)) (Name "filters") = VUndef) as ->.
  { unfold read. by rewrite list_lookup_middle. }
  unfold strict_eq. rewrite bool_decide_eq_false_2 by (intros [= E]; lia).
  unfold isPlainObject, isArray, kind_of. rewrite (lookup_app_l_Some _ _ _ _ Hf).
  cbn [from_option cls empty_array truthy andb orb].
  rewrite (bool_decide_eq_false_2 (Some KArray = Some KPlain)) by done.
  rewrite (bool_decide_eq_true_2 (Some KArray = Some KArray)) by done.
  cbn [andb orb]. unfold alloc. rewrite length_app. cbn [length]. rewrite Nat.add_1_r.
  rewrite (merge_replace dollar n ((h ++ [empty_plain]) ++ [empty_array])
             (S (length h)) KArray [] [] f []).
  - rewrite decide_True by done. cbn [mbind option_bind].
    rewrite !length_app. cbn [length]. rewrite !Nat.add_1_r.
    unfold write. rewrite <- !app_assoc. cbn [app].
    rewrite list_lookup_middle by done. cbn [from_option oset cls elems named assoc_set].
    rewrite insert_app_r_alt, Nat.sub_diag by lia. done.
  - apply list_lookup_middle. rewrite length_app. cbn [length]. lia.
  - by apply lookup_app_l_Some, lookup_app_l_Some.
  - by apply Forall_nil.
Qed.

Lemma settings_without_filters n dollar (h : list obj) d f o oo :
  h !! d = Some (Obj KPlain [] [("filters", VRef f)]) →
  h !! f = Some empty_array →
  h !! o = Some oo → cls oo ≠ KArray →
  (∀ k l, oget oo k ≠ VRef l) →
  oget oo (Name "filters") = VUndef →
  ∃ h', RangeFilter.settings (S (S (S n))) dollar h (VRef d) (VRef o)
        = Some (h', VRef (length h))
      ∧ read h' (VRef (length h)) (Name "filters") = VRef (S (S (length h)))
      ∧ h' !! S (S (length h)) = Some empty_array
      ∧ ∀ l, l < length h → h' !! l = h !! l.
Proof.
  intros Hd Hf Ho Hcls Hflat Hnone.
  pose proof (lookup_lt_Some _ _ _ Ho) as Holt.
  unfold RangeFilter.settings, alloc.
  rewrite extendext_deep_mode; [|by apply (parse_array_mode_valid "replace")|done].
  cbn [resolved fst snd merge_sources]. rewrite (settings_defaults n dollar h d f) by done.
  cbn [mbind option_bind].
  set (h3 := h ++ [Obj KPlain [] [("filters", VRef (S (S (length h))))];
                   empty_array; empty_array]).
  assert (h3 !! o = Some oo) as Ho3 by by apply lookup_app_l_Some.
  rewrite merge_source_not_array.
  2:{ unfold isArray, kind_of. rewrite Ho3. cbn [from_option].
      apply bool_decide_eq_false_2. congruence. }
  change (strict_eq (VRef o) VNull) with false. cbn match.
  destruct (merge_keys_flat
              (fun h clone copy =>
                 extendext (S (S n)) dollar h [VBool true; VStr "replace"; clone; copy])
              true (length h) (VRef o) h3 (keys h3 (VRef o)) h3)
    as (h' & -> & Hw & Hk).
  { intros _ name. unfold read. rewrite Ho3. cbn [from_option].
    specialize (Hflat name). destruct (oget oo name) as [| | | | |l0]; try done.
    by destruct (Hflat l0). }
  { intros [= ->]. lia. }
  { by split. }
  cbn [mbind option_bind]. exists h'. split; [done|]. split; [|split].
  - rewrite Hk.
    + unfold read, h3. by rewrite list_lookup_middle.
    + unfold read. rewrite Ho3. done.
  - rewrite (proj1 Hw) by lia. unfold h3. rewrite lookup_app_r by lia.
    by replace (S (S (length h)) - length h) with 2 by lia.
  - intros l Hl. rewrite (proj1 Hw) by lia. unfold h3. by rewrite lookup_app_l.
Qed.

Lemma filters_kept_write (h : list obj) this a oa k x :
  k ≠ Name "filters" →
  this < length h ∧ read h (VRef this) (Name "filters") = VRef a
    ∧ h !! a = Some oa ∧ this ≠ a →
  this < length (write h (VRef this) k x)
    ∧ read (write h (VRef this) k x) (VRef this) (Name "filters") = VRef a
    ∧ write h (VRef this) k x !! a = Some oa ∧ this ≠ a.
Proof.
  intros Hk (Hlt & Hr & Ha & Hne). rewrite length_write, read_write_ne by done.
  by rewrite lookup_write_ne.
Qed.

Lemma filters_kept_alloc (h : list obj) this a oa o :
  this < length h ∧ read h (VRef this) (Name "filters") = VRef a
    ∧ h !! a = Some oa ∧ this ≠ a →
  this < length (h ++ [o])
    ∧ read (h ++ [o]) (VRef this) (Name "filters") = VRef a
    ∧ (h ++ [o]) !! a = Some oa ∧ this ≠ a.
Proof.
  intros (Hlt & Hr & Ha & Hne). rewrite length_app, read_alloc by done.
  split; [lia|]. split; [done|]. split; [by apply lookup_app_l_Some|done].
Qed.

(** [init] once the settings hold an array as their filters. *)
Lemma init_array_settings fuel dollar this (h h' : list obj) D o t a es oi :
  RangeFilter.settings fuel dollar h D o = Some (h', VRef t) →
  read h' (VRef t) (Name "filters") = VRef a →
  h' !! a = Some (Obj KArray es []) →
  h' !! this = Some oi →
  this ≠ t → this ≠ a →
  RangeFilter.init fuel dollar (VRef this) h D o
  = Some (RangeFilter.Raised (if decide (es = []) then "Missing filters list"
                              else "Missing filter year configuration")).
Proof.
  intros Hs Hr Ha Hthis Ht Hne.
  unfold RangeFilter.init. rewrite Hs. cbn [mbind option_bind]. unfold alloc.
  cbv beta iota zeta.
  match goal with
  | |- context [RangeFilter.checkFilters ?H (VRef this)] => set (hF := H)
  end.
  assert (this < length hF ∧ read hF (VRef this) (Name "filters") = VRef a
          ∧ hF !! a = Some (Obj KArray es []) ∧ this ≠ a) as (_ & HrF & HaF & _).
  { unfold hF.
    repeat first [apply filters_kept_write; [discriminate|] | apply filters_kept_alloc].
    assert (read (write h' (VRef this) (Name "settings") (VRef t)) (VRef this)
              (Name "settings") = VRef t) as -> by by eapply read_write_eq.
    rewrite (read_write_other h' this) by done. rewrite Hr.
    rewrite !length_write. split; [by eapply lookup_lt_Some|].
    split.
    - eapply read_write_eq. by erewrite lookup_write_eq.
    - split; [|done]. by rewrite !lookup_write_ne. }
  assert (read hF (VRef a) (Name "year") = VUndef) as HyF.
  { unfold read. by rewrite HaF. }
  clearbody hF.
  unfold RangeFilter.checkFilters. rewrite HrF, HyF.
  cbn [truthy negb]. unfold RangeFilter.length_of, isArray, kind_of, array_elems.
  rewrite HaF. cbn [from_option cls elems].
  rewrite bool_decide_eq_true_2 by done. unfold RangeFilter.lt_one.
  destruct es as [|e es]; [done|].
  rewrite decide_False by done.
  assert ((Z.of_nat (length (e :: es)) <? 1)%Z = false) as ->
    by (apply Z.ltb_ge; cbn [length]; lia).
  done.
Qed.

(** X7. [init] raises ['Missing filters list'] when the defaults are
    [{filters: []}] and the options are an object that holds no object and
    no [filters]: the settings get a new empty array as their filters, the
    instance reads its filters from the settings, and their length is below
    one. *)
Theorem init_missing_filters n dollar this (h : list obj) d f o oo oi :
  h !! d = Some (Obj KPlain [] [("filters", VRef f)]) →
  h !! f = Some empty_array →
  h !! o = Some oo → cls oo ≠ KArray →
  (∀ k l, oget oo k ≠ VRef l) →
  oget oo (Name "filters") = VUndef →
  h !! this = Some oi →
  RangeFilter.init (S (S (S n))) dollar (VRef this) h (VRef d) (VRef o)
  = Some (RangeFilter.Raised "Missing filters list").
Proof.
  intros Hd Hf Ho Hcls Hflat Hnone Hthis.
  pose proof (lookup_lt_Some _ _ _ Hthis) as Hlt.
  destruct (settings_without_filters n dollar h d f o oo Hd Hf Ho Hcls Hflat Hnone)
    as (h' & Hs & Hr & Ha & Hold).
  rewrite (init_array_settings _ dollar this h h' _ _ (length h) (S (S (length h))) [] oi);
    try done; try lia.
  by rewrite Hold.
Qed.

Lemma init_missing_filters_witness :
  RangeFilter.init 3 jq (VRef 4) store_plugin (VRef 2) (VRef 3)
  = Some (RangeFilter.Raised "Missing filters list").
Proof.
  apply (init_missing_filters 0 jq 4 store_plugin 2 1 3 empty_plain (Obj KOther [] []));
    try reflexivity; try done.
  intros [[|i]|s] l; done.
Defined.

(** The settings when the options are [{filters: array}]. *)
Lemma settings_array_filters n dollar (h : list obj) d f o s vs :
  h !! d = Some (Obj KPlain [] [("filters", VRef f)]) →
  h !! f = Some empty_array →
  h !! o = Some (Obj KPlain [] [("filters", VRef s)]) →
  h !! s = Some (Obj KArray (Some <$> vs) []) →
  Forall scalar vs →
  ∃ h', RangeFilter.settings (S (S (S n))) dollar h (VRef d) (VRef o)
        = Some (h', VRef (length h))
      ∧ read h' (VRef (length h)) (Name "filters") = VRef (S (S (S (length h))))
      ∧ h' !! S (S (S (length h))) = Some (Obj KArray (Some <$> vs) [])
      ∧ ∀ l, l < length h → h' !! l = h !! l.
Proof.
  intros Hd Hf Ho Hs Hsc.
  pose proof (lookup_lt_Some _ _ _ Ho) as Holt.
  pose proof (lookup_lt_Some _ _ _ Hs) as Hslt.
  unfold RangeFilter.settings, alloc.
  rewrite extendext_deep_mode; [|by apply (parse_array_mode_valid "replace")|done].
  cbn [resolved fst snd merge_sources]. rewrite (settings_defaults n dollar h d f) by done.
  cbn [mbind option_bind].
  set (h3 := h ++ [Obj KPlain [] [("filters", VRef (S (S (length h))))];
                   empty_array; empty_array]).
  assert (h3 !! o = Some (Obj KPlain [] [("filters", VRef s)])) as Ho3
    by by apply lookup_app_l_Some.
  assert (h3 !! s = Some (Obj KArray (Some <$> vs) [])) as Hs3 by by apply lookup_app_l_Some.
  assert (h3 !! length h = Some (Obj KPlain [] [("filters", VRef (S (S (length h))))]))
    as Ht3 by by apply list_lookup_middle.
  assert (h3 !! S (S (length h)) = Some empty_array) as Ha3.
  { unfold h3. rewrite lookup_app_r by lia.
    by replace (S (S (length h)) - length h) with 2 by lia. }
  assert (length h3 = S (S (S (length h)))) as Hlen3.
  { unfold h3. rewrite length_app. cbn [length]. lia. }
  rewrite merge_source_not_array by (unfold isArray, kind_of; by rewrite Ho3).
  change (strict_eq (VRef o) VNull) with false. cbn match.
  unfold keys. rewrite Ho3.
  cbn [from_option okeys elems named present_from fmap list_fmap app compose fst merge_keys].
  unfold merge_key.
  assert (read h3 (VRef o) (Name "filters") = VRef s) as -> by (unfold read; by rewrite Ho3).
  assert (read h3 (VRef (length h)) (Name "filters") = VRef (S (S (length h)))) as ->
    by (unfold read; by rewrite Ht3).
  unfold strict_eq. rewrite bool_decide_eq_false_2 by (intros [= E]; lia).
  assert (isPlainObject h3 (VRef s) = false) as ->
    by (unfold isPlainObject, kind_of; by rewrite Hs3).
  assert (isArray h3 (VRef s) = true) as -> by (unfold isArray, kind_of; by rewrite Hs3).
  assert (isArray h3 (VRef (S (S (length h)))) = true) as ->
    by (unfold isArray, kind_of; by rewrite Ha3).
  cbn [truthy andb orb].
  rewrite (merge_replace dollar n h3 (S (S (length h))) KArray [] [] s vs) by done.
  rewrite decide_True by done. cbn [mbind option_bind]. rewrite Hlen3.
  eexists. split; [done|].
  assert ((h3 ++ [Obj KArray (Some <$> vs) []]) !! length h
          = Some (Obj KPlain [] [("filters", VRef (S (S (length h))))])) as Ht4
    by by apply lookup_app_l_Some.
  split; [by eapply read_write_eq|]. split.
  - rewrite lookup_write_ne by lia. apply list_lookup_middle. lia.
  - intros l Hl. rewrite lookup_write_ne by lia. rewrite lookup_app_l by lia.
    unfold h3. by rewrite lookup_app_l.
Qed.

(** X8. No array of scalars is accepted as filters, although the defaults
    hold an array: with the defaults [{filters: []}] and the options
    [{filters: array}], [init] raises ['Missing filters list'] when the
    array is empty, and otherwise ['Missing filter year configuration'],
    the copy of the array in the settings having no property [year]. *)
Theorem init_rejects_array_filters n dollar this (h : list obj) d f o s vs oi :
  h !! d = Some (Obj KPlain [] [("filters", VRef f)]) →
  h !! f = Some empty_array →
  h !! o = Some (Obj KPlain [] [("filters", VRef s)]) →
  h !! s = Some (Obj KArray (Some <$> vs) []) →
  Forall scalar vs →
  h !! this = Some oi →
  RangeFilter.init (S (S (S n))) dollar (VRef this) h (VRef d) (VRef o)
  = Some (RangeFilter.Raised (if decide (vs = []) then "Missing filters list"
                              else "Missing filter year configuration")).
Proof.
  intros Hd Hf Ho Hs Hsc Hthis.
  pose proof (lookup_lt_Some _ _ _ Hthis) as Hlt.
  destruct (settings_array_filters n dollar h d f o s vs Hd Hf Ho Hs Hsc)
    as (h' & Hset & Hr & Ha & Hold).
  rewrite (init_array_settings _ dollar this h h' _ _ (length h) (S (S (S (length h))))
             (Some <$> vs) oi); try done; try lia.
  - by destruct vs.
  - by rewrite Hold.
Qed.

Lemma init_rejects_array_filters_witness :
  RangeFilter.init 3 jq (VRef 4) store_plugin (VRef 2) (VRef 6)
  = Some (RangeFilter.Raised (if decide ([VStr "year"; VStr "month"] = [])
                              then "Missing filters list"
                              else "Missing filter year configuration")).
Proof.
  apply (init_rejects_array_filters 0 jq 4 store_plugin 2 1 6 5 [VStr "year"; VStr "month"]
           (Obj KOther [] [])); try reflexivity.
  repeat constructor.
Defined.




(** X10. [defaults.get] returns a new object, never the defaults or one of
    their containers: when the defaults are kept apart from the rest of the
    store the call returns, the defaults are left as they were, and no
    container that can be reached from the result is one of theirs. *)
Theorem defaults_get_copy (src : nat → Prop) (rk : nat → nat) n dollar (h : list obj) D key :
  separated src rk h → inside src D → rank rk D + 1 ≤ n →
  ∃ h', RangeFilter.defaults_get n dollar h D key = Some (h', VRef (length h))
        ∧ extends src h h'
        ∧ ∀ l, reach h' (VRef (length h)) l → ¬ src l.
Proof.
  intros Hsep HD Hn. unfold RangeFilter.defaults_get.
  set (options := match key with Some k => read h D k | None => D end).
  assert (inside src options ∧ rank rk options ≤ rank rk D) as [Hin Hrk].
  { unfold options. destruct key as [k|]; [|done].
    destruct (read_inside src rk h D k Hsep HD) as [? [?|?]]; split; try done; lia. }
  destruct (separated_alloc src rk h empty_plain Hsep) as (Hsep1 & Hext1 & Hout1).
  { by apply Forall_nil. }
  unfold alloc in *. cbn [fst snd] in Hsep1, Hext1, Hout1.
  assert (inside src options) as Hin1 by done.
  destruct (jQuery_extend_separated src rk dollar n (h ++ [empty_plain]) (VRef (length h))
              options Hsep1 Hout1 Hin1) as (h' & r & Heq & Hsep' & Hext' & Hr); [lia|].
  pose proof (jQuery_extend_grows _ _ _ _ _ _ _ Heq) as [_ ->]. cbn [resolved snd] in *.
  exists h'. split; [done|]. split.
  - intros l Hl. by rewrite Hext', Hext1.
  - intros l. by apply (reach_outside src rk).
Qed.

Lemma defaults_get_copy_witness :
  ∃ h', RangeFilter.defaults_get 5 jq store_nested (VRef 3) (Some (Name "a"))
        = Some (h', VRef (length store_nested))
        ∧ extends src_nested store_nested h'
        ∧ ∀ l, reach h' (VRef (length store_nested)) l → ¬ src_nested l.
Proof.
  apply (defaults_get_copy src_nested id 5 jq store_nested (VRef 3) (Some (Name "a"))
           store_nested_separated).
  - by right.
  - cbn. lia.
Defined.



(** X12. [defaults.get(key)] for a key whose default is a number, a
    boolean, [null] or missing does not return that value: it returns a new
    empty object. *)
Theorem defaults_get_scalar n dollar (h : list obj) D k :
  (∀ l, read h D k ≠ VRef l) →
  (∀ s, read h D k ≠ VStr s) →
  RangeFilter.defaults_get (S n) dollar h D (Some k)
  = Some (h ++ [empty_plain], VRef (length h)).
Proof.
  intros Hl Hs. unfold RangeFilter.defaults_get, alloc. rewrite jQuery_extend_deep.
  cbn [resolved fst snd jq_merge_sources]. unfold jq_merge_source.
  destruct (read h D k) as [| |b|z|s|l]; try done.
  - by destruct (Hs s).
  - by destruct (Hl l).
Qed.

Lemma defaults_get_scalar_witness :
  RangeFilter.defaults_get 1 jq store_one (VRef 1) (Some (Name "a"))
  = Some (store_one ++ [empty_plain], VRef (length store_one)).
Proof.
  apply (defaults_get_scalar 0 jq store_one (VRef 1) (Name "a")); by intros ?.
Defined.

(** * The values selected *)

Lemma clear_elems (h : list obj) l k ns : ∀ es,
  h !! l = Some (Obj k es ns) →
  RangeFilter.clear (length es) h (VRef l) = Some (<[l := Obj k [] ns]> h).
Proof.
  intros es. remember (length es) as n eqn:Hn. revert h es Hn.
  induction n as [|n IH]; intros h es Hn Hl.
  - destruct es; [|done]. cbn [RangeFilter.clear]. unfold array_elems. rewrite Hl.
    cbn [from_option elems length Nat.ltb Nat.leb]. by rewrite list_insert_id.
  - cbn [RangeFilter.clear]. unfold array_elems at 1. rewrite Hl.
    cbn [from_option elems]. rewrite <- Hn. cbn [Nat.ltb Nat.leb].
    unfold RangeFilter.pop. rewrite Hl. cbn [from_option cls elems named].
    pose proof (lookup_lt_Some _ _ _ Hl) as Hlt.
    rewrite (IH _ (removelast es)).
    + by rewrite list_insert_insert_eq.
    + destruct (exists_last (l := es)) as (es' & e & ->); [by destruct es|].
      rewrite removelast_last. rewrite length_app in Hn. cbn in Hn. lia.
    + by rewrite list_lookup_insert_eq.
Qed.

(** X13. [getFilter] does not copy the arrays of the values selected: the
    object it returns holds the arrays of the instance themselves, so that
    [clear], which empties an array in place in as many turns as the array
    has elements, empties the array held by an object returned before. *)
Theorem getFilter_shares_arrays (h : list obj) this y k es ns :
  read h (VRef this) (Name "year") = VRef y →
  h !! y = Some (Obj k es ns) →
  ∃ h', RangeFilter.clear (length es) (RangeFilter.getFilter h (VRef this)).1 (VRef y)
        = Some h'
      ∧ read h' (RangeFilter.getFilter h (VRef this)).2 (Name "year") = VRef y
      ∧ h' !! y = Some (Obj k [] ns).
Proof.
  intros Hy Hl. pose proof (lookup_lt_Some _ _ _ Hl) as Hlt.
  unfold RangeFilter.getFilter, alloc. cbn [fst snd]. rewrite Hy.
  rewrite (clear_elems _ y k ns es) by by apply lookup_app_l_Some.
  eexists. split; [done|]. split.
  - unfold read. rewrite list_lookup_insert_ne by lia.
    by rewrite list_lookup_middle.
  - apply list_lookup_insert_eq. rewrite length_app. lia.
Qed.

Lemma getFilter_shares_arrays_witness :
  ∃ h', RangeFilter.clear (length [Some (VNum 1); Some (VNum 2)])
          (RangeFilter.getFilter store_selected (VRef 2)).1 (VRef 1)
        = Some h'
      ∧ read h' (RangeFilter.getFilter store_selected (VRef 2)).2 (Name "year") = VRef 1
      ∧ h' !! 1 = Some (Obj KArray [] []).
Proof.
  apply (getFilter_shares_arrays store_selected 2 1 KArray [Some (VNum 1); Some (VNum 2)] []);
    reflexivity.
Defined.

(** * [fmt] *)

Lemma match_placeholder_head c r res :
  RangeFilter.match_placeholder (String c r) = Some res → c = "{"%char.
Proof.
  destruct c as [[|] [|] [|] [|] [|] [|] [|] [|]]; cbn; try done.
Qed.

Lemma append_nil (b : string) : String.append "" b = b.
Proof. reflexivity. Qed.

Lemma append_cons c (a b : string) : String.append (String c a) b = String c (String.append a b).
Proof. reflexivity. Qed.

Lemma append_empty_r (s : string) : String.append s "" = s.
Proof. induction s as [|c s IH]; [done|]. by rewrite append_cons, IH. Qed.

Lemma length_append (a b : string) :
  String.length (String.append a b) = String.length a + String.length b.
Proof.
  induction a as [|c a IH]; [done|]. rewrite append_cons. cbn [String.length]. by rewrite IH.
Qed.

Lemma span_digits_spec s :
  s = String.append (RangeFilter.span_digits s).1 (RangeFilter.span_digits s).2.
Proof.
  induction s as [|c r IH]; [done|]. cbn [RangeFilter.span_digits].
  destruct (RangeFilter.is_digit c); [|done].
  destruct (RangeFilter.span_digits r) as [ds rest]. cbn [fst snd] in *.
  by rewrite append_cons, <- IH.
Qed.

Lemma match_placeholder_spec s i rest :
  RangeFilter.match_placeholder s = Some (i, rest) →
  s = String "{" (String.append i (String "}" rest)) ∧ i ≠ "".
Proof.
  destruct s as [|c r]; [done|]. intros H.
  pose proof (match_placeholder_head c r _ H) as ->.
  cbn [RangeFilter.match_placeholder] in H. pose proof (span_digits_spec r) as Hr.
  destruct (RangeFilter.span_digits r) as [[|d ds] [|c' rest']]; try done.
  cbn [fst snd] in Hr.
  destruct (Ascii.eqb_spec c' "}") as [->|Hne].
  - injection H as <- <-. by rewrite Hr.
  - exfalso. revert H.
    destruct c' as [[|] [|] [|] [|] [|] [|] [|] [|]]; cbn; try done.
Qed.

Lemma replace_all_empty n f : RangeFilter.replace_all n f "" = "".
Proof. by destruct n. Qed.

(** The fuel given by [RangeFilter.fmt] is enough: more fuel changes nothing. *)

Lemma replace_all_fuel f : ∀ n m s,
  String.length s ≤ n → String.length s ≤ m → RangeFilter.replace_all n f s = RangeFilter.replace_all m f s.
Proof.
  induction n as [|n IH]; intros m s Hn Hm.
  { destruct s; [|cbn in Hn; lia]. by rewrite !replace_all_empty. }
  destruct m as [|m].
  { destruct s; [|cbn in Hm; lia]. by rewrite !replace_all_empty. }
  cbn [RangeFilter.replace_all]. destruct (RangeFilter.match_placeholder s) as [[i rest]|] eqn:E.
  - apply match_placeholder_spec in E as [-> _]. cbn [String.length] in Hn, Hm.
    rewrite length_append in Hn, Hm. cbn [String.length] in Hn, Hm.
    f_equal. apply IH; lia.
  - destruct s as [|c r]; [done|]. cbn [String.length] in Hn, Hm. f_equal. apply IH; lia.
Qed.

Lemma replace_all_ext f g : (∀ i, f i = g i) → ∀ n s, RangeFilter.replace_all n f s = RangeFilter.replace_all n g s.
Proof.
  intros Hfg. induction n as [|n IH]; intros s; [done|]. cbn [RangeFilter.replace_all].
  destruct (RangeFilter.match_placeholder s) as [[i rest]|]; [by rewrite Hfg, IH|].
  destruct s; [done|]. by rewrite IH.
Qed.

(** What [RangeFilter.fmt] puts in the place of [{i}]. *)

Lemma fmt_replace_all str args :
  RangeFilter.fmt str args
  = RangeFilter.replace_all (String.length str) (fun i => default "undefined" (args !! RangeFilter.parseInt 0 i)) str.
Proof.
  unfold RangeFilter.fmt. apply replace_all_ext. intros i. by rewrite Nat.add_1_r.
Qed.

Lemma replace_all_plain f pre : ∀ n s,
  Forall (fun c => c ≠ "{"%char) (String.list_ascii_of_string pre) →
  String.length pre ≤ n →
  RangeFilter.replace_all n f (String.append pre s)
  = String.append pre (RangeFilter.replace_all (n - String.length pre) f s).
Proof.
  induction pre as [|c pre IH]; intros n s Hpre Hn.
  { rewrite !append_nil. cbn [String.length]. by rewrite Nat.sub_0_r. }
  cbn [String.list_ascii_of_string] in Hpre. apply Forall_cons in Hpre as [Hc Hpre].
  cbn [String.length] in Hn. destruct n as [|n]; [lia|].
  rewrite !append_cons. cbn [RangeFilter.replace_all String.length Nat.sub].
  destruct (RangeFilter.match_placeholder (String c (String.append pre s))) as [res|] eqn:E.
  { by apply match_placeholder_head in E. }
  f_equal. apply IH; [done|lia].
Qed.

(** X14. [fmt] returns a string without an opening brace as it is,
    whatever the arguments. *)
Theorem fmt_plain str args :
  Forall (fun c => c ≠ "{"%char) (String.list_ascii_of_string str) →
  RangeFilter.fmt str args = str.
Proof.
  intros Hs. rewrite fmt_replace_all.
  rewrite <- (append_empty_r str) at 2.
  rewrite (replace_all_plain _ str _ "") by done.
  by rewrite replace_all_empty, append_empty_r.
Qed.

Lemma fmt_plain_witness :
  RangeFilter.fmt "Missing filters list" ["year"] = "Missing filters list".
Proof.
  apply (fmt_plain "Missing filters list" ["year"]).
  apply (bool_decide_unpack _). vm_compute. exact I.
Defined.

Lemma span_digits_digits ds c rest :
  Forall (fun d => RangeFilter.is_digit d = true) (String.list_ascii_of_string ds) →
  RangeFilter.is_digit c = false →
  RangeFilter.span_digits (String.append ds (String c rest)) = (ds, String c rest).
Proof.
  intros Hds Hc. induction ds as [|d ds IH].
  - rewrite append_nil. cbn [RangeFilter.span_digits]. by rewrite Hc.
  - cbn [String.list_ascii_of_string] in Hds. apply Forall_cons in Hds as [Hd Hds].
    rewrite append_cons. cbn [RangeFilter.span_digits]. by rewrite Hd, IH.
Qed.

(** X15. [fmt] on a text without a brace followed by a placeholder [{i}]
    and a rest: the text is kept, the placeholder is replaced by the
    argument of index [i], counted from zero after the string, or by
    [undefined] when there is no such argument, and the rest is formatted
    the same way; what was put in is not formatted again. *)
Theorem fmt_placeholder pre d ds post args :
  Forall (fun c => c ≠ "{"%char) (String.list_ascii_of_string pre) →
  Forall (fun c => RangeFilter.is_digit c = true) (String.list_ascii_of_string (String d ds)) →
  RangeFilter.fmt (String.append pre (String "{" (String.append (String d ds) (String "}" post)))) args
  = String.append pre
      (String.append (default "undefined" (args !! RangeFilter.parseInt 0 (String d ds)))
         (RangeFilter.fmt post args)).
Proof.
  intros Hpre Hds. rewrite !fmt_replace_all.
  rewrite replace_all_plain by (done || rewrite length_append; lia).
  f_equal. rewrite length_append. cbn [String.length].
  replace (String.length pre + S (String.length (String.append (String d ds) (String "}" post)))
           - String.length pre)
    with (S (String.length (String.append (String d ds) (String "}" post)))) by lia.
  cbn [RangeFilter.replace_all RangeFilter.match_placeholder].
  rewrite span_digits_digits by done.
  f_equal. apply replace_all_fuel; [|done].
  rewrite length_append. cbn [String.length]. lia.
Qed.

Lemma fmt_placeholder_witness :
  RangeFilter.fmt
    (String.append "from " (String "{" (String.append "0" (String "}" " to {1}, {2}"))))
    ["{1}"; "2020"]
  = String.append "from "
      (String.append (default "undefined" (["{1}"; "2020"] !! RangeFilter.parseInt 0 "0"))
         (RangeFilter.fmt " to {1}, {2}" ["{1}"; "2020"])).
Proof.
  apply (fmt_placeholder "from " "0" "" " to {1}, {2}" ["{1}"; "2020"]).
  - apply (bool_decide_unpack _). vm_compute. exact I.
  - apply (bool_decide_unpack _). vm_compute. exact I.
Defined.

(** * The event emitter *)

Import MicroEvent.

Lemma occurrences_cons event x names :
  occurrences event (x :: names)
  = (if decide (x = event) then 1 else 0) + occurrences event names.
Proof.
  unfold occurrences. rewrite filter_cons. by destruct (decide (x = event)).
Qed.

Lemma occurrences_notin event names : event ∉ names → occurrences event names = 0.
Proof.
  induction names as [|x names IH]; [done|].
  rewrite not_elem_of_cons, occurrences_cons. intros [? ?].
  rewrite decide_False by done. by rewrite IH.
Qed.

Lemma handlers_add reg event f event' :
  handlers (add reg event f) event'
  = handlers reg event' ++ (if decide (event = event') then [f] else []).
Proof.
  unfold add. unfold handlers at 1. destruct (decide (event = event')) as [->|Hne].
  - by rewrite lookup_insert_eq.
  - rewrite lookup_insert_ne by done. by rewrite app_nil_r.
Qed.


Lemma remove_first_app f l r : f ∉ l → remove_first f (l ++ f :: r) = l ++ r.
Proof.
  induction l as [|x l IH]; simpl; intros Hf.
  - by rewrite decide_True.
  - apply not_elem_of_cons in Hf as [? ?].
    rewrite decide_False by done. by rewrite IH.
Qed.


(** One turn of the loops of [off]. *)
Lemma handlers_remove reg event event' (g : list callback → list callback) :
  g [] = [] →
  handlers (match reg !! event with
            | Some l => <[event := g l]> reg
            | None => reg
            end) event'
  = if decide (event = event') then g (handlers reg event') else handlers reg event'.
Proof.
  intros Hg. destruct (decide (event = event')) as [->|Hne].
  - unfold handlers. destruct (reg !! event') as [l|] eqn:E.
    + by rewrite lookup_insert_eq.
    + by rewrite E.
  - destruct (reg !! event) as [l|]; [|done].
    unfold handlers. by rewrite lookup_insert_ne.
Qed.

Lemma handlers_remove_names (g : list callback → list callback) event names :
  g [] = [] → ∀ reg,
  handlers (foldl (fun reg event =>
                     match reg !! event with
                     | Some l => <[event := g l]> reg
                     | None => reg
                     end) reg names) event
  = Nat.iter (occurrences event names) g (handlers reg event).
Proof.
  intros Hg. induction names as [|x names IH]; intros reg; [done|].
  cbn [foldl]. rewrite IH, handlers_remove, occurrences_cons by done.
  destruct (decide (x = event)); [|done].
  by rewrite Nat.add_1_l, Nat.iter_succ_r.
Qed.

Lemma iter_clear k (l : list callback) :
  Nat.iter k (fun _ => []) l = if k is 0 then l else [].
Proof. by destruct k. Qed.

Lemma occurrences_pos event names : event ∈ names → occurrences event names ≠ 0.
Proof.
  induction names as [|x names IH]; [by intros ?%elem_of_nil|].
  rewrite occurrences_cons. intros [->|?]%elem_of_cons.
  - rewrite decide_True by done. lia.
  - destruct (decide (x = event)); [lia|]. by apply IH.
Qed.

Lemma handlers_empty event : handlers ∅ event = [].
Proof. unfold handlers. by rewrite lookup_empty. Qed.

(** ** The loops of [trigger] and [change] *)

Section loops.
Variable run : nat → emitter → list value → Event → option (emitter * value * Event).

Lemma fire_returned field event args : ∀ n this e i this' e',
  fire run field event args this e i n = Some (this', e', true) →
  isPropagationStopped e' = true.
Proof.
  induction n as [|n IH]; intros this e i this' e'; cbn [fire]; [done|].
  destruct (field this !! event) as [l|]; [|done]. cbn [mbind option_bind].
  destruct (l !! i) as [f|]; [|done]. cbn [mbind option_bind].
  destruct (apply run f this args e) as [[[this1 v1] e1]|]; [|done].
  cbn [mbind option_bind].
  destruct (isPropagationStopped e1) eqn:E.
  - by intros [= <- <-].
  - apply IH.
Qed.

Lemma fire_quiet field event args this l e :
  field this !! event = Some l →
  Forall (quiet run) l →
  isPropagationStopped e = false →
  ∀ n i, fire run field event args this e i n
         = if decide (n = 0 ∨ i + n ≤ length l) then Some (this, e, false) else None.
Proof.
  intros Hl Hq He. induction n as [|n IH]; intros i; cbn [fire].
  - rewrite decide_True; [done|by left].
  - rewrite Hl. cbn [mbind option_bind].
    destruct (l !! i) as [f|] eqn:Hi; cbn [mbind option_bind].
    + pose proof (lookup_lt_Some _ _ _ Hi) as Hlt.
      destruct (proj1 (Forall_lookup _ _) Hq _ _ Hi) as (id & -> & Hrun).
      cbn [apply]. destruct (Hrun this args e) as [v ->].
      cbn [mbind option_bind]. rewrite He, IH.
      destruct (decide (n = 0 ∨ S i + n ≤ length l)), (decide (S n = 0 ∨ i + S n ≤ length l));
        try done; exfalso; lia.
    + apply lookup_ge_None in Hi. rewrite decide_False; [done|lia].
Qed.

Lemma fire_skip field event args this l e :
  field this !! event = Some l →
  isPropagationStopped e = false →
  ∀ pre i n, (∀ j f, pre !! j = Some f → l !! (i + j) = Some f) →
  Forall (quiet run) pre →
  fire run field event args this e i (length pre + n)
  = fire run field event args this e (i + length pre) n.
Proof.
  intros Hl He. induction pre as [|f pre IH]; intros i n Hpre Hq.
  - by rewrite Nat.add_0_r.
  - apply Forall_cons in Hq as [(id & -> & Hrun) Hq].
    cbn [length Nat.add fire]. rewrite Hl. cbn [mbind option_bind].
    specialize (Hpre 0 _ eq_refl) as Hi. rewrite Nat.add_0_r in Hi. rewrite Hi.
    cbn [mbind option_bind apply]. destruct (Hrun this args e) as [v ->].
    cbn [mbind option_bind]. rewrite He, IH; [f_equal; lia| |done].
    intros j f Hj. replace (S i + j) with (i + S j) by lia. by apply Hpre.
Qed.

Lemma modify_modifiers result event args this l e :
  _events this !! event = Some l →
  Forall (modifier run result) l →
  isPropagationStopped e = false →
  ∀ n i v, i + n ≤ length l →
  modify run event args this e v i n
  = Some (this, foldl (fun v f => match f with
                                  | Fn id => result id (v :: args)
                                  | NotFn _ => v
                                  end) v (take n (drop i l))).
Proof.
  intros Hl Hm He. induction n as [|n IH]; intros i v Hn; cbn [modify].
  - by rewrite take_0.
  - rewrite Hl. cbn [mbind option_bind].
    destruct (lookup_lt_is_Some_2 l i) as [f Hi]; [lia|].
    rewrite Hi. cbn [mbind option_bind].
    destruct (proj1 (Forall_lookup _ _) Hm _ _ Hi) as (id & -> & Hrun).
    cbn [apply]. rewrite Hrun. cbn [mbind option_bind]. rewrite He, IH by lia.
    by rewrite (drop_S _ _ _ Hi).
Qed.
End loops.

(** ** Registering and unregistering *)




(** X18. [off] removes the earliest registration of the callback: when the
    callback was registered before, [off] after [on] moves it behind the
    handlers that followed it. *)
Theorem off_removes_earliest this event f pre post g :
  handlers (_events this) event = pre ++ f :: post →
  f ∉ pre →
  ∃ this1 this2,
    on this (Handlers [(event, f)]) g = Some this1 ∧
    off this1 (Handlers [(event, f)]) g = Some this2 ∧
    handlers (_events this2) event = pre ++ post ++ [f].
Proof.
  intros Hl Hf. do 2 eexists. split; [reflexivity|]. split; [reflexivity|].
  cbn [_events foldl fst snd].
  rewrite (handlers_remove _ event event (remove_first f)) by done.
  rewrite decide_True, handlers_add, decide_True, Hl by done.
  by rewrite <- app_assoc, <- app_comm_cons, remove_first_app.
Qed.

Lemma off_removes_earliest_witness :
  ∃ this1 this2,
    on listening (Handlers [("change", Fn 3)]) (NotFn VUndef) = Some this1 ∧
    off this1 (Handlers [("change", Fn 3)]) (NotFn VUndef) = Some this2 ∧
    handlers (_events this2) "change" = [] ++ [Fn 4] ++ [Fn 3].
Proof.
  apply (off_removes_earliest listening "change" (Fn 3) [] [Fn 4] (NotFn VUndef)).
  - by vm_compute.
  - by intros []%elem_of_nil.
Defined.

(** X19. [off] with a string of names and no callback (or a falsy one)
    returns, and leaves no handler for the names of the string; the handlers
    of the other events stay, unless the string is empty: then no event
    keeps a handler. *)
Theorem off_without_callback this s f :
  given f = false →
  ∃ this', off this (Names s) f = Some this' ∧ _once this' = _once this ∧
    ∀ event, handlers (_events this') event
             = if decide (s = "" ∨ event ∈ split " " s) then []
               else handlers (_events this) event.
Proof.
  intros Hf. unfold off. destruct (String.eqb_spec s "") as [->|Hs].
  - eexists. split; [reflexivity|]. split; [reflexivity|]. intros event.
    rewrite decide_True by by left. apply handlers_empty.
  - rewrite Hf. eexists. split; [reflexivity|]. split; [reflexivity|].
    intros event. cbn [_events].
    rewrite (handlers_remove_names (fun _ => [])), iter_clear by done.
    destruct (decide (s = "" ∨ event ∈ split " " s)) as [[?|Hin]|Hout]; [done| |].
    + apply occurrences_pos in Hin. by destruct (occurrences event (split " " s)).
    + rewrite occurrences_notin; [done|]. intros ?. apply Hout. by right.
Qed.

Lemma off_without_callback_witness :
  ∃ this', off listening (Names "draw") (NotFn VUndef) = Some this' ∧
    _once this' = _once listening ∧
    ∀ event, handlers (_events this') event
             = if decide ("draw" = "" ∨ event ∈ split " " "draw") then []
               else handlers (_events listening) event.
Proof. apply (off_without_callback listening "draw" (NotFn VUndef)). reflexivity. Defined.

(** X20. The empty string is a name for [on] and none for [off]: [on] with
    the empty string registers the callback for the event of that name;
    [off] with the empty string, whatever the callback, removes the handlers
    of every event. *)
Theorem off_empty_name this f g :
  ∃ this1 this2,
    on this (Names "") f = Some this1 ∧
    handlers (_events this1) "" = handlers (_events this) "" ++ [f] ∧
    (∀ event, event ≠ "" → handlers (_events this1) event = handlers (_events this) event) ∧
    off this1 (Names "") g = Some this2 ∧
    ∀ event, handlers (_events this2) event = [].
Proof.
  do 2 eexists. split; [reflexivity|]. cbn [_events split foldl].
  split; [|split; [|split; [reflexivity|]]].
  - by rewrite handlers_add, decide_True.
  - intros event Hne. rewrite handlers_add, decide_False by done. by rewrite app_nil_r.
  - intros event. apply handlers_empty.
Qed.

(** X21. [off] never touches the handlers registered with [once], whatever
    its arguments. *)
Theorem off_keeps_once this events f this' :
  off this events f = Some this' → _once this' = _once this.
Proof.
  unfold off. destruct events as [s|m| |]; [destruct (String.eqb s "")| | |];
    by intros [= <-].
Qed.

Lemma off_keeps_once_witness :
  _once (Emitter ∅ (_once listening)) = _once listening.
Proof. apply (off_keeps_once listening Falsy (Fn 0)). reflexivity. Defined.

(** ** Triggering *)

(** X22. Whatever the handlers do, when [trigger] returns an event whose
    propagation was not stopped, the emitter has no once-handler left for
    the event triggered: once-handlers are dropped after their first call. *)
Theorem trigger_consumes_once run this event args this' e :
  trigger run this event args = Some (this', e) →
  isPropagationStopped e = false →
  _once this' !! event = None.
Proof.
  unfold trigger. intros Ht He.
  destruct (match _events this !! event return option (emitter * Event * bool) with
            | Some l => fire run _events event args this new_Event 0 (length l)
            | None => Some (this, new_Event, false)
            end) as [[[this1 e1] [|]]|] eqn:E1; cbn [mbind option_bind] in Ht; [| |done].
  - injection Ht as <- <-.
    destruct (_events this !! event) as [l|]; [|done].
    apply fire_returned in E1. congruence.
  - destruct (_once this1 !! event) as [l|] eqn:E2.
    + destruct (fire run _once event args this1 e1 0 (length l)) as [[[this2 e2] b]|];
        cbn [mbind option_bind] in Ht; [|done].
      injection Ht as <- <-. cbn [_once]. apply lookup_delete_eq.
    + by injection Ht as <- <-.
Qed.

Lemma trigger_consumes_once_witness :
  _once (Emitter (_events listening) ∅) !! "draw" = None.
Proof.
  apply (trigger_consumes_once sample listening "draw" [] _ new_Event); reflexivity.
Defined.

(** X23. When a handler stops the propagation, [trigger] returns at once
    with the emitter as that handler left it: the handlers after it are not
    called, and neither are the once-handlers, which stay registered. *)
Theorem stop_skips_rest run this event args pre h post this1 v e1 :
  _events this !! event = Some (pre ++ Fn h :: post) →
  Forall (quiet run) pre →
  run h this args new_Event = Some (this1, v, e1) →
  isPropagationStopped e1 = true →
  trigger run this event args = Some (this1, e1).
Proof.
  intros Hl Hq Hrun He. unfold trigger. rewrite Hl.
  rewrite length_app. cbn [length].
  rewrite (fire_skip run _events event args this _ new_Event Hl eq_refl pre 0); [|by intros j f Hj; apply lookup_app_l_Some|done].
  cbn [fire Nat.add]. rewrite Hl. cbn [mbind option_bind].
  rewrite list_lookup_middle by done. cbn [mbind option_bind apply].
  rewrite Hrun. cbn [mbind option_bind]. by rewrite He.
Qed.

Lemma stop_skips_rest_witness :
  trigger sample stopping "draw" [] = Some (stopping, stopPropagation new_Event).
Proof.
  apply (stop_skips_rest sample stopping "draw" [] [Fn 0] 1 [Fn 5] stopping VUndef);
    [reflexivity| |reflexivity|reflexivity].
  apply Forall_cons. split; [|by apply Forall_nil].
  exists 0. split; [reflexivity|]. intros this args e. by exists VUndef.
Defined.

(** X24. A handler that unregisters itself while the event is triggered,
    with handlers registered after it, makes [trigger] raise: the number of
    turns was fixed before the first call, so the handler that followed is
    skipped and the last turn finds no handler to call. *)
Theorem self_removal_raises run this event args pre h rest g this1 v e1 :
  _events this !! event = Some (pre ++ Fn h :: rest) →
  Fn h ∉ pre →
  rest ≠ [] →
  Forall (quiet run) pre →
  Forall (quiet run) rest →
  off this (Handlers [(event, Fn h)]) g = Some this1 →
  run h this args new_Event = Some (this1, v, e1) →
  isPropagationStopped e1 = false →
  trigger run this event args = None.
Proof.
  intros Hl Hh Hrest Hpre Hq Hoff Hrun He. unfold trigger. rewrite Hl.
  rewrite length_app. cbn [length].
  rewrite (fire_skip run _events event args this _ new_Event Hl eq_refl pre 0); [|by intros j f Hj; apply lookup_app_l_Some|done].
  cbn [fire Nat.add]. rewrite Hl. cbn [mbind option_bind].
  rewrite list_lookup_middle by done. cbn [mbind option_bind apply].
  rewrite Hrun. cbn [mbind option_bind]. rewrite He.
  injection Hoff as <-. cbn [foldl fst snd] in *. rewrite Hl.
  rewrite (fire_quiet run _events event args _ (pre ++ rest)).
  - rewrite decide_False; [done|]. rewrite length_app.
    destruct rest; [done|]. cbn [length]. lia.
  - cbn [_events]. by rewrite lookup_insert_eq, remove_first_app.
  - by apply Forall_app.
  - done.
Qed.

Lemma self_removal_raises_witness :
  trigger sample unregistering "change" [] = None.
Proof.
  apply (self_removal_raises sample unregistering "change" [] [Fn 0] 2 [Fn 0]
           (NotFn VUndef) (Emitter {["change" := [Fn 0; Fn 0]]} ∅) VUndef new_Event);
    try reflexivity.
  - apply (bool_decide_unpack _). vm_compute. exact I.
  - done.
  - apply Forall_cons. split; [|by apply Forall_nil].
    exists 0. split; [reflexivity|]. intros this args e. by exists VUndef.
  - apply Forall_cons. split; [|by apply Forall_nil].
    exists 0. split; [reflexivity|]. intros this args e. by exists VUndef.
Defined.



(** X26. [change] with modifiers that only compute: the value returned is
    the value given, passed through the modifiers of the event in the order
    of their registration, each one receiving the result of the one before
    as its first argument. *)
Theorem change_composes run result this event l v args :
  _events this !! event = Some l →
  Forall (modifier run result) l →
  change run this event v args
  = Some (this, foldl (fun v f => match f with
                                  | Fn id => result id (v :: args)
                                  | NotFn _ => v
                                  end) v l).
Proof.
  intros Hl Hm. unfold change. rewrite Hl.
  rewrite (modify_modifiers run result event args this l) by (done || cbn; lia).
  by rewrite drop_0, firstn_all.
Qed.

Lemma change_composes_witness :
  change sample listening "change" (VNum 5) [] = Some (listening, VNum 12).
Proof.
  apply (change_composes sample sample_value listening "change" [Fn 3; Fn 4] (VNum 5) []);
    [reflexivity|].
  apply Forall_cons. split; [by exists 3|].
  apply Forall_cons. split; [by exists 4|]. by apply Forall_nil.
Defined.
